(** * Timeline animation engine ([2026/fluent/animation_before.py])

    A shallow embedding of the animation module: the four animation steps
    ([Move], [Rotate], [Scale], [Fade]), the [Animation] timeline, [Shape]
    and the polling loop [play_scene].

    Modelling decisions.
    - Python [float] values are idealised as exact rationals ([Q]); equality
      of computed coordinates is therefore [Qeq] ([==]), and concrete
      examples use dyadic values on which binary floating point is exact.
      The comparisons, the control flow, the store and the strings of the
      program do not depend on rounding; a statement whose conclusion is an
      equation between computed numbers is made for inputs on which the
      floats of the program compute without rounding (whole numbers of
      moderate size, bytes), and says so in its hypotheses.
    - [math.cos], [math.sin] and the constant [math.pi] are parameters of
      the development (Section variables).
    - Python lists of points are mutable objects: they live in a store and
      are passed by reference, so aliasing ([Fade.apply] returns the list it
      was given) and in-place mutation ([out.append] in [Rotate.apply]) are
      visible.  [Shape] and [Animation] attributes are only ever read by the
      module, they are plain records.
    - Exceptions are values of [exn]; code runs in a state-and-error monad.
    - [time.time()] is an oracle: the successive readings of the wall clock
      are an input list, and the loop consumes one reading per poll. *)

From Stdlib Require Import ZArith QArith Qround Lqa Lia String Ascii HexString.
From stdpp Require Import base option list.

Set Default Proof Using "Type".

(** ** Exceptions and results *)

Inductive exn : Type :=
| ZeroDivisionError   (* [sum(...) / len(shape)] on an empty list *)
| ValueError          (* [int(s, 16)] on a string that is no numeral *)
| BadRef.             (* model only: a reference outside the store *)

Inductive result (A : Type) : Type :=
| Ok (a : A)
| Raise (e : exn).
Arguments Ok {A} a.
Arguments Raise {A} e.

(** ** Data model *)

(** Modelled from the spec: [ShapeData] is declared in the module
    [graphics], which is not among the sources.  The specification has a
    geometry as an ordered sequence of points, a point being a pair of
    real-valued coordinates; the code iterates over it and builds it with
    list comprehensions and [append], so it is a Python list of pairs. *)
Definition Point : Type := (Q * Q)%type.

(** Modelled from the spec: [Color] is declared in [graphics] as well.  The
    code slices it ([color[1:3]]) and builds it with an f-string, so it is a
    string, of the form [#RRGGBB] in every colour of the sources. *)
Definition Color : Type := string.
Bind Scope string_scope with Color.

(** A reference to a list object. *)
Definition loc : Type := nat.

(** One call [renderer.render(shape_id, points, color)], with the contents
    of the list [points] at the time of the call. *)
Record RenderCall : Type := mkRender {
  r_shape_id : string;
  r_points : list Point;
  r_color : Color
}.

Arguments mkRender _%_string _ _%_string.

(** The store of list objects ([ShapeData] values) and the calls received
    by the renderer so far. *)
Record state : Type := mkState {
  lists : list (list Point);
  canvas : list RenderCall
}.

Definition M (A : Type) : Type := state → result A * state.

#[global] Instance M_ret : MRet M := λ A a st, (Ok a, st).
#[global] Instance M_bind : MBind M := λ A B f m st,
  match m st with
  | (Ok a, st') => f a st'
  | (Raise e, st') => (Raise e, st')
  end.

#[global] Instance result_ret : MRet result := λ A a, Ok a.
#[global] Instance result_bind : MBind result := λ A B f r,
  match r with
  | Ok a => f a
  | Raise e => Raise e
  end.

(** A computation that touches neither the store nor the renderer. *)
Definition lift {A : Type} (r : result A) : M A := λ st, (r, st).

(** Reading a list object through a reference. *)
Definition read (l : loc) : M (list Point) := λ st,
  match lists st !! l with
  | Some ps => (Ok ps, st)
  | None => (Raise BadRef, st)
  end.

(** A list display or comprehension: a new list object. *)
Definition new_list (ps : list Point) : M loc := λ st,
  (Ok (length (lists st)), mkState (lists st ++ [ps]) (canvas st)).

(** [l.append(p)]: in-place update of the object [l] refers to. *)
Definition list_append (l : loc) (p : Point) : M unit := λ st,
  match lists st !! l with
  | Some ps => (Ok tt, mkState (<[l := ps ++ [p]]> (lists st)) (canvas st))
  | None => (Raise BadRef, st)
  end.

(** Modelled from the spec: [GraphicsRenderer] is declared in [graphics].
    The specification has [render(shapeId, geometry, color)] synchronous
    and side-effecting, with no result observed by the caller and no
    feedback into the resolution: the call is recorded, with the polygon
    the list holds at this moment. *)
Definition draw (call : RenderCall) : M unit := λ st,
  (Ok tt, mkState (lists st) (canvas st ++ [call])).

(** [renderer.render(shape_id, points, color)], line 179. *)
Definition render (shape_id : string) (points : loc) (color : Color) : M unit :=
  ps ← read points; draw (mkRender shape_id ps color).

(** [st'] is [st] after some allocations and the renderer calls [calls]:
    every list object of [st] is still there with its contents, new lists
    follow, and the renderer has received [calls] in addition. *)
Definition extends (st st' : state) (calls : list RenderCall) : Prop :=
  ∃ ext, st' = mkState (lists st ++ ext) (canvas st ++ calls).

(** A computation that only allocates and draws: from every state, it ends
    in an extension of that state, whether it returns or raises. *)
Definition keeps_store {A : Type} (m : M A) : Prop :=
  ∀ st, ∃ calls, extends st (m st).2 calls.

(** [for x in xs: body(x)] *)
Fixpoint for_each {A : Type} (xs : list A) (body : A → M unit) : M unit :=
  match xs with
  | [] => mret tt
  | x :: xs' => body x;; for_each xs' body
  end.

(** ** Numbers *)

Definition Qlt_bool (a b : Q) : bool := negb (Qle_bool b a).

(** Python's two-argument [min] and [max]: the first argument wins ties. *)
Definition py_min (a b : Q) : Q := if Qlt_bool b a then b else a.
Definition py_max (a b : Q) : Q := if Qlt_bool a b then b else a.

(** [sum(xs)]: left to right from 0 (on exact rationals neither the order
    nor a compensation of the additions changes the value; the floats of
    the program round each partial sum). *)
Definition py_sum (xs : list Q) : Q := fold_left Qplus xs 0%Q.

(** [max(xs)] on a non-empty iterable: the first maximal element. *)
Definition py_max_list (x : Q) (xs : list Q) : Q := fold_left py_max xs x.

(** [a / n] where [n = len(...)]. *)
Definition py_truediv (a : Q) (n : nat) : result Q :=
  match n with
  | O => Raise ZeroDivisionError
  | S _ => Ok (a / inject_Z (Z.of_nat n))%Q
  end.

(** [int(q)] on a float: truncation toward zero. *)
Definition py_int (q : Q) : Z := Z.quot (Qnum q) (Z.pos (Qden q)).

(** [lerp], lines 28-29. *)
Definition lerp (a b t : Q) : Q := (a + (b - a) * t)%Q.

(** ** Strings: [int(s, 16)] and the format specification [02x] *)

Definition hex_digit (c : ascii) : option Z :=
  let n := Z.of_N (N_of_ascii c) in
  if ((48 <=? n) && (n <=? 57))%Z then Some (n - 48)%Z          (* 0 to 9 *)
  else if ((97 <=? n) && (n <=? 102))%Z then Some (n - 87)%Z    (* a to f *)
  else if ((65 <=? n) && (n <=? 70))%Z then Some (n - 55)%Z     (* A to F *)
  else None.

(** White space as [int] strips it, on code points below 256. *)
Definition is_space (c : ascii) : bool :=
  let n := N_of_ascii c in
  ((9 <=? n) && (n <=? 13) || (28 <=? n) && (n <=? 32)
   || (n =? 133) || (n =? 160))%N.

Fixpoint lstrip (cs : list ascii) : list ascii :=
  match cs with
  | c :: cs' => if is_space c then lstrip cs' else cs
  | [] => []
  end.

Definition strip (cs : list ascii) : list ascii :=
  rev (lstrip (rev (lstrip cs))).

Fixpoint digits_value (cs : list ascii) (acc : Z) : option Z :=
  match cs with
  | [] => Some acc
  | c :: cs' =>
      match hex_digit c with
      | Some d => digits_value cs' (16 * acc + d)%Z
      | None => None
      end
  end.

(** [int(s, 16)] for a string [s] of at most two characters, which is all
    that the slice [color[1:3]] can produce: optional surrounding white
    space, an optional sign, then at least one hexadecimal digit.  (On
    longer strings Python also accepts a [0x] prefix and single underscores
    between digits; neither fits in two characters.) *)
Definition py_int16 (s : string) : result Z :=
  let cs := strip (list_ascii_of_string s) in
  let '(neg, ds) :=
    match cs with
    | "+"%char :: r => (false, r)
    | "-"%char :: r => (true, r)
    | _ => (false, cs)
    end in
  match ds with
  | [] => Raise ValueError
  | _ :: _ =>
      match digits_value ds 0 with
      | Some v => Ok (if neg then (- v)%Z else v)
      | None => Raise ValueError
      end
  end.

(** The digits of [|n|] in lower-case hexadecimal. *)
Definition hex_digits (n : Z) : string :=
  match n with
  | Z0 => "0"
  | Zpos p | Zneg p => HexString.Raw.of_pos p ""
  end.

(** [f"{n:02x}"]: sign-aware zero padding to width 2. *)
Definition fmt_02x (n : Z) : string :=
  if (n <? 0)%Z then String "-" (hex_digits n)
  else
    let d := hex_digits n in
    if (String.length d <? 2)%nat then String "0" d else d.

(** ** Colours as the specification sees them

    A colour [#RRGGBB] has three channels; it is achromatic when they are
    equal.  Two colours are observably equal when they are the same string
    or have the same channels (hexadecimal digits may differ in case). *)

Definition hex2 (a b : ascii) : option Z :=
  match hex_digit a, hex_digit b with
  | Some x, Some y => Some (16 * x + y)%Z
  | _, _ => None
  end.

Definition channels (c : Color) : option (Z * Z * Z) :=
  match list_ascii_of_string c with
  | [hash; r1; r2; g1; g2; b1; b2] =>
      if Ascii.eqb hash "#" then
        match hex2 r1 r2, hex2 g1 g2, hex2 b1 b2 with
        | Some r, Some g, Some b => Some (r, g, b)
        | _, _, _ => None
        end
      else None
  | _ => None
  end.

Definition achromatic (c : Color) : Prop := ∃ v, channels c = Some (v, v, v).

Definition color_eqv (c c' : Color) : Prop :=
  c = c' ∨ (is_Some (channels c) ∧ channels c = channels c').

(** Checks run by computation over all characters and all bytes. *)

Definition all_ascii : list ascii := map ascii_of_nat (seq 0 256).

Definition result_Z_eqb (r : result Z) (z : Z) : bool :=
  match r with
  | Ok z' => (z' =? z)%Z
  | Raise _ => false
  end.

(** Two hexadecimal digits are read by [int(s, 16)] as their value, which
    is a byte. *)
Definition parse_pair_ok (a b : ascii) : bool :=
  match hex2 a b with
  | Some v =>
      result_Z_eqb (py_int16 (String a (String b ""))) v
      && (0 <=? v)%Z && (v <=? 255)%Z
  | None => true
  end.

(** A byte is formatted by [02x] as two hexadecimal digits of that value. *)
Definition format_byte_ok (n : nat) : bool :=
  match fmt_02x (Z.of_nat n) with
  | String a (String b EmptyString) =>
      match hex2 a b with
      | Some v => (v =? Z.of_nat n)%Z
      | None => false
      end
  | _ => false
  end.

(** Geometries are observably equal when they have the same points, up to
    the representation of the rationals. *)
Definition geom_eq (g g' : list Point) : Prop :=
  Forall2 (λ p q, p.1 == q.1 ∧ p.2 == q.2)%Q g g'.

(** ** Animation steps (lines 37-95) *)

Inductive AnimationStep : Type :=
| Move (dx dy : Q)
| Rotate (angle : Q)
| Scale (factor : Q)
| Fade (brightness : Z).

(** ** Animation timeline and shapes (lines 103-130) *)

Record Animation : Type := mkAnimation {
  steps : list AnimationStep;
  durations : list Q;
  start_time : Q
}.

(** The generated [__init__] of the dataclass stores its three arguments;
    there is no [__post_init__]. *)
Definition Animation_init (steps : list AnimationStep) (durations : list Q)
    (start_time : Q) : result Animation :=
  Ok (mkAnimation steps durations start_time).

(** The property [Animation.duration], lines 111-113. *)
Definition duration (self : Animation) : Q := py_sum (durations self).

(** The property [Animation.end_time], lines 115-117. *)
Definition end_time (self : Animation) : Q :=
  (start_time self + duration self)%Q.

Record Shape : Type := mkShape {
  shape_id : string;
  points : loc;
  color : Color;
  animation : option Animation
}.

Arguments mkShape _%_string _ _%_string _.

(** Outcome of a run of [play_scene] on a finite prefix of clock readings. *)
Inductive outcome : Type :=
| Returned    (* the function returned *)
| Polling.    (* the readings ran out while the loop was still polling *)

Section Engine.

(** [math.cos], [math.sin] and [math.pi]. *)
Variables (cos sin : Q → Q) (pi : Q).

Local Open Scope Q_scope.

(** [math.radians] *)
Definition radians (x : Q) : Q := x * (pi / 180).

(** [Move.apply], lines 42-46. *)
Definition Move_apply (dx dy : Q) (shape : loc) (color : Color) (t : Q)
    : M (loc * Color) :=
  ps ← read shape;
  new_points ← new_list (map (λ '(x, y), (x + dx * t, y + dy * t)) ps);
  mret (new_points, color).

(** [Rotate.apply], lines 53-66. *)
Definition Rotate_apply (angle : Q) (shape : loc) (color : Color) (t : Q)
    : M (loc * Color) :=
  let theta := radians (angle * t) in
  ps ← read shape;
  cx ← lift (py_truediv (py_sum (map fst ps)) (length ps));
  cy ← lift (py_truediv (py_sum (map snd ps)) (length ps));
  out ← new_list [];
  for_each ps (λ '(x, y),
    let nx := cx + (x - cx) * cos theta - (y - cy) * sin theta in
    let ny := cy + (x - cx) * sin theta + (y - cy) * cos theta in
    list_append out (nx, ny));;
  mret (out, color).

(** [Scale.apply], lines 73-82. *)
Definition Scale_apply (factor : Q) (shape : loc) (color : Color) (t : Q)
    : M (loc * Color) :=
  ps ← read shape;
  cx ← lift (py_truediv (py_sum (map fst ps)) (length ps));
  cy ← lift (py_truediv (py_sum (map snd ps)) (length ps));
  let s := lerp 1 factor t in
  new_points ← new_list (map (λ '(x, y), (cx + (x - cx) * s, cy + (y - cy) * s)) ps);
  mret (new_points, color).

(** [Fade.apply], lines 89-95.  The list [shape] is returned as it came.
    (The target is taken within the range of floats: the [OverflowError]
    of line 93 on an integer beyond it is not modelled.) *)
Definition Fade_apply (brightness : Z) (shape : loc) (color : Color) (t : Q)
    : M (loc * Color) :=
  current_val ← lift (py_int16 (substring 1 2 color));
  let new_val := py_int (lerp (inject_Z current_val) (inject_Z brightness) t) in
  let new_color :=
    String "#" (fmt_02x new_val ++ fmt_02x new_val ++ fmt_02x new_val)%string in
  mret (shape, new_color).

(** [step.apply(points, color, t)]: dispatch on the class of the step. *)
Definition step_apply (step : AnimationStep) : loc → Color → Q → M (loc * Color) :=
  match step with
  | Move dx dy => Move_apply dx dy
  | Rotate angle => Rotate_apply angle
  | Scale factor => Scale_apply factor
  | Fade brightness => Fade_apply brightness
  end.

(** The inner [for] loop of [play_scene], lines 164-177, over the pairs of
    [zip(anim.steps, anim.durations)]. *)
Fixpoint replay_loop (pairs : list (AnimationStep * Q)) (t_anim time_cursor : Q)
    (points : loc) (color : Color) : M (loc * Color) :=
  match pairs with
  | [] => mret (points, color)
  | (step, duration) :: rest =>
      if Qle_bool duration 0 then
        replay_loop rest t_anim time_cursor points color
      else
        let local_t_raw := (t_anim - time_cursor) / duration in
        let local_t := py_max 0 (py_min 1 local_t_raw) in
        '(points', color') ← step_apply step points color local_t;
        if Qlt_bool local_t 1 then mret (points', color')
        else replay_loop rest t_anim (time_cursor + duration) points' color'
  end.

(** Lines 157-177: the resolution of one active shape at instant [now]. *)
Definition replay (shape : Shape) (anim : Animation) (now : Q) : M (loc * Color) :=
  let t_anim := now - start_time anim in
  replay_loop (zip (steps anim) (durations anim)) t_anim 0
    (points shape) (color shape).

(** The test of line 151. *)
Definition active (anim : Animation) (now : Q) : bool :=
  Qle_bool (start_time anim) now && Qle_bool now (end_time anim).

(** The [for shape in shapes] loop, lines 145-179; the result is the value
    of [finished] after the loop. *)
Fixpoint for_shapes (shapes : list Shape) (now : Q) (finished : bool) : M bool :=
  match shapes with
  | [] => mret finished
  | shape :: rest =>
      match animation shape with
      | None => for_shapes rest now finished
      | Some anim =>
          if negb (active anim now) then for_shapes rest now finished
          else
            '(points, color) ← replay shape anim now;
            render (shape_id shape) points color;;
            for_shapes rest now false
      end
  end.

(** Whether some shape passes the test of line 151 at [now]. *)
Definition any_active (shapes : list Shape) (now : Q) : bool :=
  existsb (λ shape,
    match animation shape with
    | Some anim => active anim now
    | None => false
    end) shapes.

(** Every shape refers to a list of the store. *)
Definition well_formed (st : state) (shapes : list Shape) : Prop :=
  Forall (λ shape, is_Some (lists st !! points shape)) shapes.

(** One iteration of the [while True] loop at elapsed time [now], lines
    143-184; the result tells whether the [break] of line 184 is taken. *)
Definition poll (shapes : list Shape) (global_end now : Q) : M bool :=
  finished ← for_shapes shapes now true;
  mret (finished && Qle_bool global_end now).

(** The [while True] loop, lines 141-186, one clock reading per iteration;
    [time.sleep] only lets the clock advance. *)
Fixpoint play_loop (shapes : list Shape) (global_end t0 : Q) (clock : list Q)
    : M outcome :=
  match clock with
  | [] => mret Polling
  | reading :: clock' =>
      let now := reading - t0 in
      stop ← poll shapes global_end now;
      if stop : bool then mret Returned
      else play_loop shapes global_end t0 clock'
  end.

(** [play_scene], lines 132-186.  [clock] lists the values returned by the
    successive calls of [time.time()]. *)
Definition play_scene (shapes : list Shape) (clock : list Q) : M outcome :=
  match omap animation shapes with
  | [] => mret Returned
  | anim :: animations =>
      let global_end := py_max_list (end_time anim) (map end_time animations) in
      match clock with
      | [] => mret Polling
      | t0 :: clock' => play_loop shapes global_end t0 clock'
      end
  end.

(** ** The values computed

    What [step.apply] computes, as a function of the contents of the list
    it is given: the contents of the list it returns, and the colour. *)

Definition centroid (ps : list Point) : result Point :=
  cx ← py_truediv (py_sum (map fst ps)) (length ps);
  cy ← py_truediv (py_sum (map snd ps)) (length ps);
  mret (cx, cy).

Definition rotate_point (cx cy theta : Q) : Point → Point := λ '(x, y),
  (cx + (x - cx) * cos theta - (y - cy) * sin theta,
   cy + (x - cx) * sin theta + (y - cy) * cos theta).

Definition fade_color (brightness : Z) (color : Color) (t : Q) : result Color :=
  current_val ← py_int16 (substring 1 2 color);
  let new_val := py_int (lerp (inject_Z current_val) (inject_Z brightness) t) in
  mret (String "#" (fmt_02x new_val ++ fmt_02x new_val ++ fmt_02x new_val)%string).

Definition step_value (step : AnimationStep) (ps : list Point) (color : Color)
    (t : Q) : result (list Point * Color) :=
  match step with
  | Move dx dy =>
      Ok (map (λ '(x, y), (x + dx * t, y + dy * t)) ps, color)
  | Rotate angle =>
      '(cx, cy) ← centroid ps;
      mret (map (rotate_point cx cy (radians (angle * t))) ps, color)
  | Scale factor =>
      '(cx, cy) ← centroid ps;
      let s := lerp 1 factor t in
      mret (map (λ '(x, y), (cx + (x - cx) * s, cy + (y - cy) * s)) ps, color)
  | Fade brightness =>
      new_color ← fade_color brightness color t;
      mret (ps, new_color)
  end.

(** Every step of a list applied in order at progress 1. *)
Fixpoint apply_all (sts : list AnimationStep) (ps : list Point) (color : Color)
    : result (list Point * Color) :=
  match sts with
  | [] => Ok (ps, color)
  | step :: rest =>
      '(ps', color') ← step_value step ps color 1;
      apply_all rest ps' color'
  end.

(** ** The resolution as the specification words it

    Walk the pairs in order with a cumulative-offset cursor; skip a pair of
    duration at most 0; apply each other step at the clamped progress; stop
    after the first step whose raw progress is below 1. *)

Definition clamp (x lo hi : Q) : Q :=
  if Qle_bool x lo then lo else if Qle_bool hi x then hi else x.

Fixpoint spec_walk (pairs : list (AnimationStep * Q)) (t cursor : Q)
    (g : list Point) (c : Color) : result (list Point * Color) :=
  match pairs with
  | [] => Ok (g, c)
  | (step, d) :: rest =>
      if Qle_bool d 0 then spec_walk rest t cursor g c
      else
        let raw := (t - cursor) / d in
        '(g', c') ← step_value step g c (clamp raw 0 1);
        if Qlt_bool raw 1 then Ok (g', c')
        else spec_walk rest t (cursor + d) g' c'
  end.

(** The total duration as the specification words it: the sum of the
    durations in which every duration at most 0 counts for nothing. *)
Definition spec_total_duration (ds : list Q) : Q :=
  py_sum (map (λ d, if Qle_bool d 0 then 0 else d) ds).

(** The steps that are paired with a positive duration, in order. *)
Definition positive_steps (pairs : list (AnimationStep * Q)) : list AnimationStep :=
  map fst (List.filter (λ p, Qlt_bool 0 p.2) pairs).

Definition spec_resolve (base : list Point) (base_color : Color)
    (timeline : Animation) (now : Q) : result (list Point * Color) :=
  spec_walk (zip (steps timeline) (durations timeline))
    (now - start_time timeline) 0 base base_color.

(** The calls the renderer is to receive in one frame, and the error that
    cuts the frame short, if any. *)
Fixpoint spec_frame (store : list (list Point)) (shapes : list Shape) (now : Q)
    : list RenderCall * option exn :=
  match shapes with
  | [] => ([], None)
  | shape :: rest =>
      match animation shape with
      | None => spec_frame store rest now
      | Some timeline =>
          if active timeline now then
            match store !! points shape with
            | None => ([], Some BadRef)
            | Some base =>
                match spec_resolve base (color shape) timeline now with
                | Ok (g, c) =>
                    let '(calls, err) := spec_frame store rest now in
                    (mkRender (shape_id shape) g c :: calls, err)
                | Raise e => ([], Some e)
                end
            end
          else spec_frame store rest now
      end
  end.

End Engine.

(** ** Concrete scenes

    Stand-ins for the trigonometric functions (the first terms of their
    series) and small scenes on which the statements below are run. *)

Definition cos_series (q : Q) : Q := (1 - q * q / 2)%Q.
Definition sin_series (q : Q) : Q := q.
Definition pi_approx : Q := (355 # 113)%Q.

Definition square : list Point :=
  [(0, 0); (10, 0); (10, 10); (0, 10)]%Q.

(** A store holding the square, and a renderer that has drawn nothing. *)
Definition square_store : state := mkState [square] [].

(** A square that moves right for one second, then fades to black. *)
Definition move_then_fade_timeline : Animation :=
  mkAnimation [Move 10 0; Fade 0] [1; 1]%Q 0%Q.
Definition move_then_fade : Shape :=
  mkShape "square" 0 "#ffffff" (Some move_then_fade_timeline).

Definition moved_square : list Point :=
  [(10, 0); (20, 0); (20, 10); (10, 10)]%Q.

(** A timeline whose only step has duration 0. *)
Definition instant_timeline : Animation := mkAnimation [Move 10 0] [0]%Q 0%Q.
Definition instant_shape : Shape :=
  mkShape "instant" 0 "#ffffff" (Some instant_timeline).

(** Two shapes with the disjoint active windows [0, 1] and [2, 3]. *)
Definition first_window : Animation := mkAnimation [Move 10 0] [1]%Q 0%Q.
Definition first_shape : Shape := mkShape "first" 0 "#ffffff" (Some first_window).

(** A timeline with a negative duration. *)
Definition negative_timeline : Animation :=
  mkAnimation [Move 10 0; Move 0 10] [1; - (1 # 2)]%Q 0%Q.


(** A store whose only list is empty. *)
Definition empty_store : state := mkState [[]] [].

(** A shape without points that is to rotate. *)
Definition rotation : Animation := mkAnimation [Rotate 90] [1]%Q 0%Q.
Definition empty_rotor : Shape := mkShape "rotor" 0 "#444444" (Some rotation).

(** A timeline built with two steps and one duration. *)
Definition mismatched_shape : Shape :=
  mkShape "mismatched" 0 "#ffffff"
    (Some (mkAnimation [Move 10 0; Move 0 10] [1]%Q 0%Q)).

(** ** Further notions used by the properties of the engine *)

(** The test of lines 146-152 on one shape. *)
Definition shape_active (now : Q) (shape : Shape) : bool :=
  match animation shape with
  | Some anim => active anim now
  | None => false
  end.

(** The steps that the loop of lines 164-177 applies at the time [t_anim]
    inside the animation, in order: those of positive duration, up to and
    including the first one whose progress is below 1. *)
Fixpoint applied_steps (pairs : list (AnimationStep * Q)) (t_anim time_cursor : Q)
    : list AnimationStep :=
  match pairs with
  | [] => []
  | (step, duration) :: rest =>
      if Qle_bool duration 0 then applied_steps rest t_anim time_cursor
      else
        let local_t_raw := ((t_anim - time_cursor) / duration)%Q in
        let local_t := py_max 0 (py_min 1 local_t_raw) in
        step :: (if Qlt_bool local_t 1 then []
                 else applied_steps rest t_anim (time_cursor + duration)%Q)
  end.

(** The steps that return the list they are given. *)
Definition is_fade (step : AnimationStep) : Prop :=
  match step with
  | Fade _ => True
  | _ => False
  end.

(** The steps that divide by the number of points. *)
Definition is_pivot (step : AnimationStep) : Prop :=
  match step with
  | Rotate _ | Scale _ => True
  | _ => False
  end.

(** A colour that [Fade.apply] reads as a byte. *)
Definition colour_ok (c : Color) : Prop :=
  ∃ v, py_int16 (substring 1 2 c) = Ok v ∧ (0 <= v <= 255)%Z.

(** The documented range of the target of [Fade] (line 87). *)
Definition fade_target_ok (step : AnimationStep) : Prop :=
  match step with
  | Fade brightness => (0 <= brightness <= 255)%Z
  | _ => True
  end.

(** An animated shape with at least one point, a colour that reads as a
    byte and targets in range. *)
Definition shape_ok (st : state) (shape : Shape) : Prop :=
  match animation shape with
  | None => True
  | Some anim =>
      (∃ base, lists st !! points shape = Some base ∧ base ≠ [])
      ∧ colour_ok (color shape)
      ∧ Forall fade_target_ok (steps anim)
  end.

(** ** The scene of [main_before.py] (lines 26-78) *)

Definition main_square_points : list Point :=
  [(250, 200); (350, 200); (350, 300); (250, 300)]%Q.

Definition main_triangle_points : list Point :=
  [(500, 250); (550, 350); (450, 350)]%Q.

Definition square_animation : Animation :=
  mkAnimation
    [Rotate 60; Move 200 0; Scale (13 # 10); Fade 200; Move 0 120; Fade 40]
    [1; 1; 1; 8 # 10; 1; 8 # 10]%Q 0%Q.

Definition triangle_animation : Animation :=
  mkAnimation [Fade 220; Move (-80) 40; Scale (9 # 10)] [1; 1; 1]%Q (1 # 2)%Q.

Definition main_square : Shape :=
  mkShape "square" 0 "#444444" (Some square_animation).

Definition main_triangle : Shape :=
  mkShape "triangle" 1 "#888888" (Some triangle_animation).

Definition main_shapes : list Shape := [main_square; main_triangle].

(** The two lists of points of the scene, and a renderer that has drawn
    nothing. *)
Definition main_store : state :=
  mkState [main_square_points; main_triangle_points] [].

(** A shape without animation, and a timeline that ends before it starts. *)
Definition static_shape : Shape := mkShape "static" 0 "#ffffff" None.

Definition backwards_timeline : Animation :=
  mkAnimation [Move 10 0] [- (1)]%Q 0%Q.
Definition backwards_shape : Shape :=
  mkShape "backwards" 0 "#ffffff" (Some backwards_timeline).

(** ** Further scenes *)

(** The shape of the timeline with a negative duration. *)
Definition cut_shape : Shape :=
  mkShape "cut" 0 "#ffffff" (Some negative_timeline).

(** A shape without points whose rotation comes third, after a step of
    duration 0 and a move of one second. *)
Definition delayed_rotation : Animation :=
  mkAnimation [Fade 0; Move 10 0; Rotate 90] [0; 1; 1]%Q 0%Q.
Definition delayed_rotor : Shape :=
  mkShape "rotor" 0 "#444444" (Some delayed_rotation).


(** ** Inputs on which binary floating point is exact

    A whole number of moderate size: sums of up to 2^26 of them, their
    differences and their products with 0.0 and 1.0 are whole numbers
    below 2^53, which floats hold and compute exactly. *)
Definition whole_number (q : Q) : Prop :=
  ∃ n : Z, q = inject_Z n ∧ (- 2 ^ 26 <= n <= 2 ^ 26)%Z.

(** A timeline whose start time and durations are whole numbers. *)
Definition whole_timeline (anim : Animation) : Prop :=
  whole_number (start_time anim)
  ∧ Forall whole_number (durations anim)
  ∧ (Z.of_nat (length (durations anim)) <= 2 ^ 26)%Z.

(** A polygon whose coordinates are whole numbers, and whose centroid
    (lines 57-58 and 77-78) is a point of whole coordinates as well. *)
Definition whole_geometry (ps : list Point) : Prop :=
  Forall (λ p, whole_number p.1 ∧ whole_number p.2) ps
  ∧ (Z.of_nat (length ps) <= 2 ^ 26)%Z
  ∧ ∃ cx cy : Z,
      (py_sum (map fst ps) == inject_Z cx * inject_Z (Z.of_nat (length ps)))%Q
      ∧ (py_sum (map snd ps)
         == inject_Z cy * inject_Z (Z.of_nat (length ps)))%Q.

(** * Proofs *)

Section Proofs.

Context (cos sin : Q → Q) (pi : Q).

Local Open Scope Q_scope.

Local Abbreviation step_apply := (step_apply cos sin pi).
Local Abbreviation step_value := (step_value cos sin pi).
Local Abbreviation Rotate_apply := (Rotate_apply cos sin pi).
Local Abbreviation replay_loop := (replay_loop cos sin pi).
Local Abbreviation replay := (replay cos sin pi).
Local Abbreviation for_shapes := (for_shapes cos sin pi).
Local Abbreviation poll := (poll cos sin pi).
Local Abbreviation play_loop := (play_loop cos sin pi).
Local Abbreviation play_scene := (play_scene cos sin pi).
Local Abbreviation spec_walk := (spec_walk cos sin pi).
Local Abbreviation spec_resolve := (spec_resolve cos sin pi).
Local Abbreviation spec_frame := (spec_frame cos sin pi).
Local Abbreviation apply_all := (apply_all cos sin pi).

(** ** Comparisons *)

Lemma Qlt_bool_iff (a b : Q) : Qlt_bool a b = true ↔ a < b.
Proof.
  unfold Qlt_bool. rewrite negb_true_iff.
  destruct (Qle_bool b a) eqn:E.
  - apply Qle_bool_iff in E. split; [discriminate | lra].
  - split; [intros _ | reflexivity].
    apply Qnot_le_lt. intros H. apply Qle_bool_iff in H. congruence.
Qed.

Lemma Qle_bool_false (a b : Q) : Qle_bool a b = false ↔ b < a.
Proof.
  rewrite <- Qlt_bool_iff. unfold Qlt_bool.
  destruct (Qle_bool a b); simpl; split; congruence.
Qed.

Lemma Qlt_bool_false (a b : Q) : Qlt_bool a b = false ↔ b <= a.
Proof.
  unfold Qlt_bool. rewrite negb_false_iff. apply Qle_bool_iff.
Qed.

(** The clamped progress of the code is the [clamp] of the specification,
    and the test [local_t < 1.0] is the test on the raw progress. *)
Lemma local_t_clamp (raw : Q) : py_max 0 (py_min 1 raw) = clamp raw 0 1.
Proof.
  unfold py_max, py_min, clamp.
  destruct (Qlt_bool raw 1) eqn:E1.
  - apply Qlt_bool_iff in E1.
    destruct (Qlt_bool 0 raw) eqn:E2.
    + apply Qlt_bool_iff in E2.
      destruct (Qle_bool raw 0) eqn:E3; [apply Qle_bool_iff in E3; lra |].
      destruct (Qle_bool 1 raw) eqn:E4; [apply Qle_bool_iff in E4; lra |].
      reflexivity.
    + apply Qlt_bool_false in E2.
      destruct (Qle_bool raw 0) eqn:E3; [reflexivity |].
      apply Qle_bool_false in E3. lra.
  - apply Qlt_bool_false in E1.
    destruct (Qlt_bool 0 1) eqn:E2; [| apply Qlt_bool_false in E2; lra].
    destruct (Qle_bool raw 0) eqn:E3; [apply Qle_bool_iff in E3; lra |].
    destruct (Qle_bool 1 raw) eqn:E4; [reflexivity |].
    apply Qle_bool_false in E4. lra.
Qed.

Lemma local_t_lt_1 (raw : Q) :
  Qlt_bool (py_max 0 (py_min 1 raw)) 1 = Qlt_bool raw 1.
Proof.
  unfold py_max, py_min.
  destruct (Qlt_bool raw 1) eqn:E1.
  - apply Qlt_bool_iff in E1.
    destruct (Qlt_bool 0 raw); apply Qlt_bool_iff; lra.
  - change (Qlt_bool 0 1) with true. cbv iota. apply Qlt_bool_false. lra.
Qed.


(** ** The store *)

Lemma extends_refl (st : state) : extends st st [].
Proof. exists []. destruct st; simpl. by rewrite !app_nil_r. Qed.

Lemma extends_trans (st1 st2 st3 : state) (c1 c2 : list RenderCall) :
  extends st1 st2 c1 → extends st2 st3 c2 → extends st1 st3 (c1 ++ c2).
Proof.
  intros [e1 ->] [e2 ->]. exists (e1 ++ e2). simpl. by rewrite !app_assoc.
Qed.

Lemma extends_trans_nil (st1 st2 st3 : state) :
  extends st1 st2 [] → extends st2 st3 [] → extends st1 st3 [].
Proof. intros H1 H2. apply (extends_trans _ _ _ [] [] H1 H2). Qed.

Lemma extends_lookup (st st' : state) (calls : list RenderCall) (l : loc)
    (ps : list Point) :
  extends st st' calls → lists st !! l = Some ps → lists st' !! l = Some ps.
Proof. intros [ext ->] H. simpl. by apply lookup_app_l_Some. Qed.

Lemma extends_canvas (st st' : state) (calls : list RenderCall) :
  extends st st' calls → canvas st' = canvas st ++ calls.
Proof. by intros [ext ->]. Qed.

Lemma new_list_extends (ps : list Point) (st : state) :
  ∃ st', new_list ps st = (Ok (length (lists st)), st')
         ∧ extends st st' [] ∧ lists st' !! length (lists st) = Some ps.
Proof.
  eexists. split; [reflexivity |]. split.
  - exists [ps]. simpl. by rewrite app_nil_r.
  - simpl. by apply list_lookup_middle.
Qed.

(** A loop of [append]s on one list adds the images of the elements, in
    order, at its end. *)
Lemma for_each_append (body : Point → M unit) (f : Point → Point) (out : loc)
    (ps acc : list Point) (st : state) :
  (∀ p, body p = list_append out (f p)) →
  lists st !! out = Some acc →
  for_each ps body st
  = (Ok tt, mkState (<[out := acc ++ map f ps]> (lists st)) (canvas st)).
Proof.
  intros Hbody. revert acc st.
  induction ps as [| p ps IH]; intros acc st Hout; simpl.
  - rewrite app_nil_r, list_insert_id by done. by destruct st.
  - unfold mbind, M_bind. rewrite Hbody. unfold list_append at 1.
    rewrite Hout.
    rewrite (IH (acc ++ [f p])).
    + simpl. by rewrite list_insert_insert_eq, <- app_assoc.
    + simpl. apply list_lookup_insert_eq. by eapply lookup_lt_Some.
Qed.

(** ** What the steps compute *)

Lemma centroid_nil : centroid [] = Raise ZeroDivisionError.
Proof. reflexivity. Qed.

Lemma centroid_cons (p : Point) (ps : list Point) :
  centroid (p :: ps)
  = Ok (py_sum (map fst (p :: ps)) / inject_Z (Z.of_nat (length (p :: ps))),
        py_sum (map snd (p :: ps)) / inject_Z (Z.of_nat (length (p :: ps)))).
Proof. reflexivity. Qed.

Lemma py_truediv_length (a : Q) (ps : list Point) :
  ps ≠ [] →
  py_truediv a (length ps) = Ok (a / inject_Z (Z.of_nat (length ps))).
Proof. by destruct ps. Qed.

(** [step.apply] returns a reference to a list holding the points that
    [step_value] computes; it allocates, and changes no list that existed
    before the call.  When it raises, the store is as it was. *)
Lemma step_apply_sound (step : AnimationStep) (l : loc) (c : Color) (t : Q)
    (st : state) (ps : list Point) :
  lists st !! l = Some ps →
  match step_value step ps c t with
  | Ok (ps', c') =>
      ∃ l' st', step_apply step l c t st = (Ok (l', c'), st')
                ∧ extends st st' [] ∧ lists st' !! l' = Some ps'
  | Raise e => step_apply step l c t st = (Raise e, st)
  end.
Proof.
  intros Hl. destruct step as [dx dy | angle | factor | brightness]; simpl.
  - unfold Move_apply, mbind, M_bind, read. rewrite Hl.
    destruct (new_list_extends (map (λ '(x, y), (x + dx * t, y + dy * t)) ps) st)
      as (st' & -> & Hext & Hlook).
    simpl. eauto.
  - destruct ps as [| p ps'].
    + rewrite centroid_nil. simpl.
      unfold Rotate_apply, mbind, M_bind, read. rewrite Hl. reflexivity.
    + assert (Hne : p :: ps' ≠ []) by done.
      remember (p :: ps') as ps eqn:Hps. clear Hps p ps'.
      unfold Rotate_apply, centroid, mbind, M_bind, result_bind, read, lift.
      rewrite Hl, !py_truediv_length by done.
      cbv beta iota zeta.

      unfold mret, result_ret, M_ret, new_list. cbv beta iota zeta.
      set (cx := py_sum (map fst ps) / inject_Z (Z.of_nat (length ps))).
      set (cy := py_sum (map snd ps) / inject_Z (Z.of_nat (length ps))).
      set (theta := radians pi (angle * t)).
      rewrite (for_each_append _ (rotate_point cos sin cx cy theta)
                 (length (lists st)) ps []).
      * cbn [lists canvas app]. eexists _, _. split; [reflexivity |]. split.
        -- exists [map (rotate_point cos sin cx cy theta) ps].
           cbn [lists canvas]. rewrite app_nil_r.
           rewrite insert_app_r_alt by lia. by rewrite Nat.sub_diag.
        -- cbn [lists]. apply list_lookup_insert_eq.
           rewrite length_app. simpl. lia.
      * intros [x y]. reflexivity.
      * cbn [lists]. by apply list_lookup_middle.
  - destruct ps as [| p ps'].
    + rewrite centroid_nil. simpl.
      unfold Scale_apply, mbind, M_bind, read. rewrite Hl. reflexivity.
    + assert (Hne : p :: ps' ≠ []) by done.
      remember (p :: ps') as ps eqn:Hps. clear Hps p ps'.
      unfold Scale_apply, centroid, mbind, M_bind, result_bind, read, lift.
      rewrite Hl, !py_truediv_length by done.
      unfold mret, result_ret, M_ret, new_list. cbv beta iota zeta.
      eexists _, _. split; [reflexivity |]. split.
      * eexists [_]. cbn [lists canvas]. by rewrite app_nil_r.
      * cbn [lists]. by apply list_lookup_middle.
  - unfold Fade_apply, fade_color, mbind, M_bind, result_bind, lift.
    destruct (py_int16 (substring 1 2 c)) as [cur | e]; simpl; [| reflexivity].
    eexists _, _. split; [reflexivity |]. split; [apply extends_refl | done].
Qed.

(** ** The replay of one shape *)

(** The inner loop of [play_scene] computes the walk of the specification:
    it returns a reference to a list holding the resolved points, and
    leaves every list that existed before as it was. *)
Lemma replay_loop_spec (pairs : list (AnimationStep * Q)) (t cur : Q) (l : loc)
    (c : Color) (st : state) (g : list Point) :
  lists st !! l = Some g →
  ∃ st', extends st st' [] ∧
    match spec_walk pairs t cur g c with
    | Ok (g', c') =>
        ∃ l', replay_loop pairs t cur l c st = (Ok (l', c'), st')
              ∧ lists st' !! l' = Some g'
    | Raise e => replay_loop pairs t cur l c st = (Raise e, st')
    end.
Proof.
  revert cur l c st g.
  induction pairs as [| [step d] rest IH]; intros cur l c st g Hl.
  - exists st. split; [apply extends_refl |]. simpl. eauto.
  - simpl. destruct (Qle_bool d 0); [by apply IH |].
    rewrite local_t_clamp.
    pose proof (step_apply_sound step l c (clamp ((t - cur) / d) 0 1) st g Hl)
      as Hstep.
    unfold mbind at 1. unfold result_bind. unfold mbind, M_bind.
    destruct (step_value step g c (clamp ((t - cur) / d) 0 1))
      as [[g1 c1] | e].
    + destruct Hstep as (l1 & st1 & -> & Hext & Hl1).
      rewrite <- local_t_clamp, local_t_lt_1.
      destruct (Qlt_bool ((t - cur) / d) 1).
      * exists st1. split; [done |]. eauto.
      * destruct (IH (cur + d) l1 c1 st1 g1 Hl1) as (st2 & Hext2 & H2).
        exists st2. split; [by eapply extends_trans_nil |]. done.
    + exists st. split; [apply extends_refl |]. by rewrite Hstep.
Qed.

(** ** One frame *)

Lemma well_formed_extends (st st' : state) (calls : list RenderCall)
    (shapes : list Shape) :
  extends st st' calls → well_formed st shapes → well_formed st' shapes.
Proof.
  intros Hext Hwf. eapply Forall_impl; [exact Hwf |].
  intros shape [ps Hps]. exists ps. by eapply extends_lookup.
Qed.

Lemma spec_frame_extends (st st' : state) (calls : list RenderCall)
    (shapes : list Shape) (now : Q) :
  extends st st' calls → well_formed st shapes →
  spec_frame (lists st') shapes now = spec_frame (lists st) shapes now.
Proof.
  intros Hext. induction shapes as [| shape rest IH]; intros Hwf; [done |].
  apply Forall_cons in Hwf as [[ps Hps] Hwf]. simpl.
  rewrite (IH Hwf), Hps, (extends_lookup _ _ _ _ _ Hext Hps). done.
Qed.

(** The loop over the shapes: the renderer receives the calls of
    [spec_frame], in order; [finished] is cleared as soon as one shape is
    active; an exception ends the frame. *)
Lemma for_shapes_spec (shapes : list Shape) (now : Q) (fin : bool) (st : state) :
  well_formed st shapes →
  ∃ st', extends st st' (spec_frame (lists st) shapes now).1 ∧
    for_shapes shapes now fin st
    = (match (spec_frame (lists st) shapes now).2 with
       | None => Ok (fin && negb (any_active shapes now))
       | Some e => Raise e
       end, st').
Proof.
  revert fin st. induction shapes as [| shape rest IH]; intros fin st Hwf.
  - exists st. split; [apply extends_refl |]. simpl. by rewrite andb_true_r.
  - apply Forall_cons in Hwf as [[base Hbase] Hwf]. simpl.
    destruct (animation shape) as [anim |]; [| by apply IH].
    destruct (active anim now) eqn:Hact; simpl; [| by apply IH].
    rewrite Hbase. unfold replay, spec_resolve, mbind, M_bind.
    destruct (replay_loop_spec (zip (steps anim) (durations anim))
                (now - start_time anim) 0 (points shape) (color shape) st base
                Hbase) as (st1 & Hext1 & Hrun).
    destruct (spec_walk _ _ _ _ _) as [[g c] | e].
    + destruct Hrun as (l1 & -> & Hl1).
      unfold render, mbind, M_bind, read, draw. rewrite Hl1.
      set (st2 := mkState (lists st1) (canvas st1 ++ [mkRender (shape_id shape) g c])).
      assert (Hext2 : extends st st2 [mkRender (shape_id shape) g c]).
      { destruct Hext1 as [ext ->]. exists ext. unfold st2. simpl.
        by rewrite app_nil_r. }
      destruct (IH false st2 (well_formed_extends _ _ _ _ Hext2 Hwf))
        as (st3 & Hext3 & ->).
      rewrite (spec_frame_extends _ _ _ _ _ Hext2 Hwf) in *.
      destruct (spec_frame (lists st) rest now) as [calls err]. simpl in *.
      exists st3. split.
      * apply (extends_trans _ _ _ [_] calls Hext2 Hext3).
      * by rewrite andb_false_r.
    + exists st1. split; [done |]. by rewrite Hrun.
Qed.

(** C1. In one frame of [play_scene], every shape that is active at [now]
    (start_time <= now <= end_time) is forwarded to the renderer with the
    geometry and colour of a full replay from its base points and base
    colour, as the specification words it ([spec_frame], [spec_resolve],
    [spec_walk]): pairs walked in order with a cursor starting at 0, pairs of
    duration at most 0 skipped without moving the cursor, each other step
    applied at the clamped progress, the walk stopped after the first step
    of raw progress below 1 and the cursor advanced otherwise.  Shapes that
    are not active are not forwarded; an exception ends the frame. *)
Theorem frame_forwards_full_replay (shapes : list Shape) (now : Q) (fin : bool)
    (st : state) :
  well_formed st shapes →
  ∃ st' r,
    for_shapes shapes now fin st = (r, st')
    ∧ extends st st' (spec_frame (lists st) shapes now).1
    ∧ match (spec_frame (lists st) shapes now).2 with
      | None => ∃ b, r = Ok b
      | Some e => r = Raise e
      end.
Proof.
  intros Hwf.
  destruct (for_shapes_spec shapes now fin st Hwf) as (st' & Hext & Hrun).
  exists st'. eexists. split; [exact Hrun |]. split; [exact Hext |].
  destruct (spec_frame (lists st) shapes now).2; eauto.
Qed.

(** ** Nothing is written to a list that existed before *)

Lemma keeps_ret {A : Type} (a : A) : keeps_store (mret a).
Proof. intros st. exists []. apply extends_refl. Qed.

Lemma keeps_bind {A B : Type} (m : M A) (f : A → M B) :
  keeps_store m → (∀ a, keeps_store (f a)) → keeps_store (m ≫= f).
Proof.
  intros Hm Hf st. unfold mbind, M_bind.
  destruct (Hm st) as [c1 H1]. destruct (m st) as [[a | e] st1]; simpl in *.
  - destruct (Hf a st1) as [c2 H2]. exists (c1 ++ c2). by eapply extends_trans.
  - by exists c1.
Qed.

Lemma keeps_lift {A : Type} (r : result A) : keeps_store (lift r).
Proof. intros st. exists []. apply extends_refl. Qed.

Lemma keeps_read (l : loc) : keeps_store (read l).
Proof.
  intros st. exists []. unfold read.
  destruct (lists st !! l); apply extends_refl.
Qed.

Lemma keeps_new_list (ps : list Point) : keeps_store (new_list ps).
Proof.
  intros st. exists [].
  destruct (new_list_extends ps st) as (st' & -> & Hext & _). done.
Qed.

Lemma keeps_render (shape_id : string) (l : loc) (c : Color) :
  keeps_store (render shape_id l c).
Proof.
  apply keeps_bind; [apply keeps_read |].
  intros ps st. exists [mkRender shape_id ps c]. exists []. simpl.
  by rewrite app_nil_r.
Qed.

(** The one in-place update of the module, [out.append], is on the list
    allocated just before by [out = []]. *)
Lemma keeps_fresh_append {A : Type} (body : loc → Point → M unit)
    (f : Point → Point) (ps : list Point) (k : loc → M A) :
  (∀ out p, body out p = list_append out (f p)) →
  (∀ out, keeps_store (k out)) →
  keeps_store (out ← new_list []; for_each ps (body out);; k out).
Proof.
  intros Hbody Hk st. unfold mbind, M_bind, new_list.
  rewrite (for_each_append _ f (length (lists st)) ps []).
  - cbn [lists canvas app].
    rewrite insert_app_r_alt, Nat.sub_diag by lia. cbn [insert list_insert].
    set (st1 := mkState (lists st ++ [map f ps]) (canvas st)).
    destruct (Hk (length (lists st)) st1) as [calls Hext].
    exists calls.
    apply (extends_trans st st1 _ [] calls); [| done].
    exists [map f ps]. unfold st1. by rewrite app_nil_r.
  - intros p. apply Hbody.
  - cbn [lists]. by apply list_lookup_middle.
Qed.

Lemma keeps_step_apply (step : AnimationStep) (l : loc) (c : Color) (t : Q) :
  keeps_store (step_apply step l c t).
Proof.
  destruct step as [dx dy | angle | factor | brightness]; simpl.
  - apply keeps_bind; [apply keeps_read | intros ps].
    apply keeps_bind; [apply keeps_new_list | intros l']. apply keeps_ret.
  - apply keeps_bind; [apply keeps_read | intros ps].
    apply keeps_bind; [apply keeps_lift | intros cx].
    apply keeps_bind; [apply keeps_lift | intros cy].
    apply (keeps_fresh_append
             (λ out '(x, y), list_append out _)
             (rotate_point cos sin cx cy (radians pi (angle * t)))).
    + by intros out [x y].
    + intros out. apply keeps_ret.
  - apply keeps_bind; [apply keeps_read | intros ps].
    apply keeps_bind; [apply keeps_lift | intros cx].
    apply keeps_bind; [apply keeps_lift | intros cy].
    apply keeps_bind; [apply keeps_new_list | intros l']. apply keeps_ret.
  - apply keeps_bind; [apply keeps_lift | intros cur]. apply keeps_ret.
Qed.

Lemma keeps_replay_loop (pairs : list (AnimationStep * Q)) (t cur : Q) (l : loc)
    (c : Color) :
  keeps_store (replay_loop pairs t cur l c).
Proof.
  revert cur l c. induction pairs as [| [step d] rest IH]; intros cur l c; simpl.
  - apply keeps_ret.
  - destruct (Qle_bool d 0); [apply IH |].
    apply keeps_bind; [apply keeps_step_apply | intros [l' c']].
    destruct (Qlt_bool _ 1); [apply keeps_ret | apply IH].
Qed.

Lemma keeps_for_shapes (shapes : list Shape) (now : Q) (fin : bool) :
  keeps_store (for_shapes shapes now fin).
Proof.
  revert fin. induction shapes as [| shape rest IH]; intros fin; simpl.
  - apply keeps_ret.
  - destruct (animation shape) as [anim |]; [| apply IH].
    destruct (negb (active anim now)); [apply IH |].
    apply keeps_bind; [apply keeps_replay_loop | intros [l c]].
    apply keeps_bind; [apply keeps_render | intros _]. apply IH.
Qed.

Lemma keeps_play_loop (shapes : list Shape) (global_end t0 : Q) (clock : list Q) :
  keeps_store (play_loop shapes global_end t0 clock).
Proof.
  induction clock as [| reading clock IH]; simpl.
  - apply keeps_ret.
  - apply keeps_bind.
    + apply keeps_bind; [apply keeps_for_shapes | intros b]. apply keeps_ret.
    + intros [|]; [apply keeps_ret | apply IH].
Qed.


(** ** The list a resolution returns *)







(** ** The exit of the loop *)

Lemma active_iff (anim : Animation) (now : Q) :
  active anim now = true ↔ start_time anim <= now ∧ now <= end_time anim.
Proof. unfold active. by rewrite andb_true_iff, !Qle_bool_iff. Qed.

Lemma active_false_iff (anim : Animation) (now : Q) :
  active anim now = false ↔ now < start_time anim ∨ end_time anim < now.
Proof. unfold active. by rewrite andb_false_iff, !Qle_bool_false. Qed.

(** A frame in which no shape is active calls nothing and leaves
    [finished] as it is. *)
Lemma for_shapes_idle (shapes : list Shape) (now : Q) (fin : bool) (st : state) :
  any_active shapes now = false → for_shapes shapes now fin st = (Ok fin, st).
Proof.
  induction shapes as [| shape rest IH]; simpl; [done |].
  destruct (animation shape) as [anim |]; simpl; [| done].
  destruct (active anim now); simpl; [discriminate | done].
Qed.

(** [finished] is never set back to [True]. *)
Lemma for_shapes_false (shapes : list Shape) (now : Q) (st st' : state)
    (b : bool) :
  for_shapes shapes now false st = (Ok b, st') → b = false.
Proof.
  revert st. induction shapes as [| shape rest IH]; intros st; simpl.
  - by intros [= <- _].
  - destruct (animation shape) as [anim |]; [| apply IH].
    destruct (negb (active anim now)); [apply IH |].
    unfold mbind, M_bind.
    destruct (replay shape anim now st) as [[[l c] | e] st1]; [| done].
    destruct (render (shape_id shape) l c st1) as [[[] | e] st2]; [| done].
    apply IH.
Qed.

(** A frame with an active shape ends with [finished] cleared, or raises. *)
Lemma for_shapes_busy (shapes : list Shape) (now : Q) (fin : bool)
    (st st' : state) (b : bool) :
  any_active shapes now = true →
  for_shapes shapes now fin st = (Ok b, st') → b = false.
Proof.
  induction shapes as [| shape rest IH]; simpl; [done |].
  destruct (animation shape) as [anim |]; simpl; [| done].
  destruct (active anim now); simpl; [intros _ | done].
  unfold mbind, M_bind.
  destruct (replay shape anim now st) as [[[l c] | e] st1]; [| done].
  destruct (render (shape_id shape) l c st1) as [[[] | e] st2]; [| done].
  apply for_shapes_false.
Qed.

(** The [break] of line 184 is taken exactly when no shape is active and
    [now >= global_end]; nothing has been drawn in that iteration. *)
Lemma poll_exits_iff (shapes : list Shape) (global_end now : Q) (st st' : state) :
  poll shapes global_end now st = (Ok true, st')
  ↔ any_active shapes now = false ∧ global_end <= now ∧ st' = st.
Proof.
  unfold poll, mbind, M_bind. split.
  - destruct (any_active shapes now) eqn:Hact.
    + destruct (for_shapes shapes now true st) as [[b | e] st1] eqn:Hrun;
        [| done].
      rewrite (for_shapes_busy _ _ _ _ _ _ Hact Hrun). by intros [=].
    + rewrite for_shapes_idle by done. simpl.
      intros [= Hle <-]. apply Qle_bool_iff in Hle. done.
  - intros (Hact & Hle & ->). rewrite for_shapes_idle by done. simpl.
    apply Qle_bool_iff in Hle. unfold mret, M_ret. by rewrite Hle.
Qed.

Lemma poll_idle (shapes : list Shape) (global_end now : Q) (st : state) :
  any_active shapes now = false →
  poll shapes global_end now st = (Ok (Qle_bool global_end now), st).
Proof.
  intros Hact. unfold poll, mbind, M_bind. by rewrite for_shapes_idle.
Qed.

(** Once the readings [earlier] have been polled without leaving the loop,
    the loop goes on with the readings that follow, from the store the
    frames drawn so far have left. *)
Lemma play_loop_app (shapes : list Shape) (global_end t0 : Q)
    (earlier clock : list Q) (st st1 : state) :
  play_loop shapes global_end t0 earlier st = (Ok Polling, st1) →
  play_loop shapes global_end t0 (earlier ++ clock) st
  = play_loop shapes global_end t0 clock st1.
Proof.
  revert st. induction earlier as [| r earlier IH]; intros st; simpl.
  - by intros [= <-].
  - unfold mbind, M_bind.
    destruct (poll shapes global_end (r - t0) st) as [[[|] | e] st2]; try done.
    apply IH.
Qed.


(** ** Durations *)

Lemma fold_left_Qplus (ds : list Q) (a b : Q) :
  fold_left Qplus ds (a + b) == a + fold_left Qplus ds b.
Proof.
  revert a b. induction ds as [| d ds IH]; intros a b; simpl; [reflexivity |].
  rewrite <- IH. clear IH.
  assert (Hcomp : ∀ x y, x == y → fold_left Qplus ds x == fold_left Qplus ds y).
  { induction ds as [| d' ds IH]; intros x y Hxy; simpl; [done |].
    apply IH. by rewrite Hxy. }
  apply Hcomp. ring.
Qed.

Lemma py_sum_cons (d : Q) (ds : list Q) : py_sum (d :: ds) == d + py_sum ds.
Proof.
  unfold py_sum. simpl. rewrite <- fold_left_Qplus.
  assert (Hcomp : ∀ ds x y, x == y → fold_left Qplus ds x == fold_left Qplus ds y).
  { clear. induction ds as [| d' ds IH]; intros x y Hxy; simpl; [done |].
    apply IH. by rewrite Hxy. }
  apply Hcomp. ring.
Qed.

Lemma py_sum_nonneg (ds : list Q) : Forall (λ d, 0 <= d) ds → 0 <= py_sum ds.
Proof.
  induction 1 as [| d ds Hd _ IH]; [unfold py_sum; simpl; lra |].
  rewrite py_sum_cons. lra.
Qed.

(** C3 (code bug).  On the durations [1.0, -0.5] the property [duration]
    (line 113) gives 0.5, where the total of the specification, in which a
    duration at most 0 counts for nothing, is 1.0 - and the replay of lines
    164-177 sides with the specification: it skips the negative duration
    and completes the first step only at time 1.0 inside the animation.
    [end_time] (line 117) follows [duration], so that the window of line 151
    closes at 0.5: in the frame at [now = 0.5] the shape is drawn with its
    first step half done, at every later instant the frame passes over it,
    and the position the replay gives at [now = 1.0] is never drawn. *)
Theorem negative_duration_ends_window_early :
  duration negative_timeline == 1 # 2
  ∧ spec_total_duration (durations negative_timeline) == 1
  ∧ end_time negative_timeline == 1 # 2
  ∧ (∃ st' g,
       for_shapes [cut_shape] (1 # 2) true square_store = (Ok false, st')
       ∧ canvas st' = [mkRender "cut" g "#ffffff"]
       ∧ geom_eq g [(5, 0); (15, 0); (15, 10); (5, 10)])
  ∧ (∀ now st, 1 # 2 < now →
       for_shapes [cut_shape] now true st = (Ok true, st))
  ∧ (∃ st' l g,
       replay cut_shape negative_timeline 1 square_store
       = (Ok (l, "#ffffff"%string), st')
       ∧ lists st' !! l = Some g ∧ geom_eq g moved_square).
Proof.
  split; [reflexivity |]. split; [reflexivity |]. split; [reflexivity |].
  split; [| split].
  - eexists _, _. split; [vm_compute; reflexivity |].
    split; [reflexivity |]. repeat constructor.
  - intros now st Hnow. apply for_shapes_idle. simpl.
    rewrite orb_false_r. apply active_false_iff. right.
    assert (He : end_time negative_timeline == 1 # 2) by reflexivity.
    lra.
  - eexists _, _, _. split; [vm_compute; reflexivity |].
    split; [reflexivity |]. repeat constructor.
Qed.

(** ** Resolution at the end of the timeline *)

Lemma py_sum_positive_nonneg (ds : list Q) :
  0 <= py_sum (List.filter (Qlt_bool 0) ds).
Proof.
  induction ds as [| d ds IH]; [unfold py_sum; simpl; lra |].
  cbn [List.filter]. destruct (Qlt_bool 0 d) eqn:Hd; [| done].
  apply Qlt_bool_iff in Hd. rewrite py_sum_cons. lra.
Qed.

(** Once the time inside the animation has reached the sum of the positive
    durations still to come, the walk applies every step of positive
    duration at progress 1, and skips the others. *)
Lemma spec_walk_complete (pairs : list (AnimationStep * Q)) (t cur : Q)
    (g : list Point) (c : Color) :
  cur + py_sum (List.filter (Qlt_bool 0) (map snd pairs)) <= t →
  spec_walk pairs t cur g c = apply_all (positive_steps pairs) g c.
Proof.
  revert cur g c. induction pairs as [| [step d] rest IH]; intros cur g c Ht.
  - reflexivity.
  - unfold positive_steps in *. simpl in *.
    destruct (Qle_bool d 0) eqn:Hd.
    { replace (Qlt_bool 0 d) with false in *
        by (unfold Qlt_bool; by rewrite Hd).
      by apply IH. }
    replace (Qlt_bool 0 d) with true in *
      by (unfold Qlt_bool; by rewrite Hd).
    apply Qle_bool_false in Hd. rewrite py_sum_cons in Ht.
    pose proof (py_sum_positive_nonneg (map snd rest)) as Hrest.
    assert (Hraw : 1 <= (t - cur) / d).
    { apply Qle_shift_div_l; [done | lra]. }
    assert (Hclamp : clamp ((t - cur) / d) 0 1 = 1).
    { unfold clamp.
      destruct (Qle_bool ((t - cur) / d) 0) eqn:E1;
        [apply Qle_bool_iff in E1; lra |].
      destruct (Qle_bool 1 ((t - cur) / d)) eqn:E2; [done |].
      apply Qle_bool_false in E2. lra. }
    assert (Hstop : Qlt_bool ((t - cur) / d) 1 = false)
      by (apply Qlt_bool_false; lra).
    rewrite Hclamp. simpl. unfold mbind, result_bind.
    destruct (step_value step g c 1) as [[g' c'] | e]; [| done].
    rewrite Hstop. apply IH. lra.
Qed.

Lemma positive_zip_le (sts : list AnimationStep) (ds : list Q) :
  Forall (λ d, 0 <= d) ds →
  py_sum (List.filter (Qlt_bool 0) (map snd (zip sts ds))) <= py_sum ds.
Proof.
  intros Hds. revert sts. induction Hds as [| d ds Hd Hds IH]; intros sts.
  - destruct sts; simpl; lra.
  - destruct sts as [| s sts]; simpl.
    + change (py_sum []) with 0.
      pose proof (py_sum_nonneg (d :: ds) (Forall_cons_2 _ _ _ Hd Hds)). lra.
    + specialize (IH sts). rewrite (py_sum_cons d ds).
      destruct (Qlt_bool 0 d); [rewrite py_sum_cons |]; lra.
Qed.

(** When every duration is positive and no step lacks a duration, every
    step is paired with a positive duration. *)
Lemma positive_steps_all (sts : list AnimationStep) (ds : list Q) :
  Forall (λ d, 0 < d) ds → (length sts <= length ds)%nat →
  positive_steps (zip sts ds) = sts.
Proof.
  intros Hds. revert sts. induction Hds as [| d ds Hd Hds IH]; intros sts Hlen.
  - destruct sts; [done | simpl in Hlen; lia].
  - destruct sts as [| s sts]; [done |]. simpl in Hlen.
    unfold positive_steps in *. simpl.
    apply Qlt_bool_iff in Hd. rewrite Hd. simpl. f_equal. apply IH. lia.
Qed.

(** C4 (amended).  For a shape whose timeline has a whole-number start
    time and whole-number durations, none of them negative - the sums of
    lines 113, 117 and 177 are then computed without rounding -, the
    resolution at [now == end_time] (an instant at which the shape is
    active) yields the composition, in order and from the base points and
    colour, of every step that is paired with a positive duration, each at
    progress exactly 1.  Steps of duration 0, and steps beyond the end of
    [durations], are skipped, not applied. *)
Theorem resolve_at_end_time (shape : Shape) (anim : Animation)
    (base : list Point) (st : state) (now : Q) :
  animation shape = Some anim →
  lists st !! points shape = Some base →
  whole_timeline anim →
  Forall (λ d, 0 <= d) (durations anim) →
  now == end_time anim →
  active anim now = true
  ∧ ∃ st', extends st st' [] ∧
      match apply_all (positive_steps (zip (steps anim) (durations anim)))
              base (color shape) with
      | Ok (g, c) =>
          ∃ l, replay shape anim now st = (Ok (l, c), st')
               ∧ lists st' !! l = Some g
      | Raise e => replay shape anim now st = (Raise e, st')
      end.
Proof.
  intros _ Hbase _ Hds Hnow. unfold end_time, duration in Hnow.
  pose proof (py_sum_nonneg _ Hds) as Hsum.
  split.
  - apply active_iff. unfold end_time, duration. lra.
  - unfold replay.
    destruct (replay_loop_spec (zip (steps anim) (durations anim))
                (now - start_time anim) 0 (points shape) (color shape) st base
                Hbase) as (st' & Hext & Hrun).
    rewrite spec_walk_complete in Hrun.
    + exists st'. split; [done |].
      destruct (apply_all _ base (color shape)) as [[g c] | e]; done.
    + pose proof (positive_zip_le (steps anim) _ Hds). lra.
Qed.

(** ** Hexadecimal strings *)

Lemma ascii_in_range (a : ascii) : In a (map ascii_of_nat (seq 0 256)).
Proof.
  apply in_map_iff. exists (nat_of_ascii a). split.
  - apply ascii_nat_embedding.
  - apply in_seq. pose proof (nat_ascii_bounded a). lia.
Qed.

Lemma result_Z_eqb_eq (r : result Z) (z : Z) :
  result_Z_eqb r z = true → r = Ok z.
Proof.
  destruct r as [z' | e]; simpl; [| done].
  intros H. apply Z.eqb_eq in H. by subst.
Qed.

Lemma py_int16_hex2 (a b : ascii) (v : Z) :
  hex2 a b = Some v →
  py_int16 (String a (String b "")) = Ok v ∧ (0 <= v <= 255)%Z.
Proof.
  assert (Hall : forallb (λ a, forallb (parse_pair_ok a) all_ascii) all_ascii
                 = true) by (vm_compute; reflexivity).
  intros Hv.
  pose proof (proj1 (forallb_forall _ _) Hall a (ascii_in_range a)) as Ha.
  pose proof (proj1 (forallb_forall _ _) Ha b (ascii_in_range b)) as Hab.
  unfold parse_pair_ok in Hab. rewrite Hv in Hab.
  apply andb_true_iff in Hab as [Hab Hhi].
  apply andb_true_iff in Hab as [Hparse Hlo].
  split; [by apply result_Z_eqb_eq | lia].
Qed.

Lemma fmt_02x_byte (n : Z) :
  (0 <= n <= 255)%Z →
  ∃ a b, fmt_02x n = String a (String b "") ∧ hex2 a b = Some n.
Proof.
  assert (Hall : forallb format_byte_ok (seq 0 256) = true)
    by (vm_compute; reflexivity).
  intros Hn.
  assert (Hin : In (Z.to_nat n) (seq 0 256)) by (apply in_seq; lia).
  pose proof (proj1 (forallb_forall _ _) Hall _ Hin) as Hok.
  unfold format_byte_ok in Hok. rewrite Z2Nat.id in Hok by lia.
  destruct (fmt_02x n) as [| a [| b [| ? ?]]]; try discriminate.
  exists a, b. split; [done |].
  destruct (hex2 a b) as [v |]; [| discriminate].
  apply Z.eqb_eq in Hok. by subst.
Qed.

(** [int] depends on the value of the rational only. *)
Lemma py_int_Qeq (q q' : Q) : q == q' → py_int q = py_int q'.
Proof.
  destruct q as [n d], q' as [n' d']. unfold Qeq, py_int. simpl. intros H.
  rewrite <- (Z.quot_mul_cancel_r n (Z.pos d) (Z.pos d')) by lia.
  rewrite H.
  rewrite (Z.mul_comm (Z.pos d) (Z.pos d')).
  by rewrite Z.quot_mul_cancel_r by lia.
Qed.

Lemma py_int_inject_Z (z : Z) : py_int (inject_Z z) = z.
Proof. unfold py_int. simpl. apply Z.quot_1_r. Qed.

Lemma lerp_0 (a b : Q) : lerp a b 0 == a.
Proof. unfold lerp. ring. Qed.

Lemma lerp_1 (a b : Q) : lerp a b 1 == b.
Proof. unfold lerp. ring. Qed.

(** ** Progress 0 *)

Lemma geom_eq_map (f : Point → Point) (ps : list Point) :
  (∀ p, (f p).1 == p.1 ∧ (f p).2 == p.2) → geom_eq (map f ps) ps.
Proof.
  intros Hf. induction ps as [| p ps IH]; simpl; constructor; auto.
Qed.

Lemma geom_eq_refl (ps : list Point) : geom_eq ps ps.
Proof. induction ps; constructor; [split; reflexivity | done]. Qed.

Lemma channels_inv (c : Color) (r g b : Z) :
  channels c = Some (r, g, b) →
  ∃ r1 r2 g1 g2 b1 b2,
    c = String "#" (String r1 (String r2 (String g1 (String g2
          (String b1 (String b2 ""))))))
    ∧ hex2 r1 r2 = Some r ∧ hex2 g1 g2 = Some g ∧ hex2 b1 b2 = Some b.
Proof.
  unfold channels.
  destruct c as [| h [| r1 [| r2 [| g1 [| g2 [| b1 [| b2 [| ? ?]]]]]]]];
    simpl; try discriminate.
  destruct (Ascii.eqb h "#") eqn:Hh; [| discriminate].
  apply Ascii.eqb_eq in Hh. subst h.
  destruct (hex2 r1 r2) as [r' |] eqn:Hr; [| discriminate].
  destruct (hex2 g1 g2) as [g' |] eqn:Hg; [| discriminate].
  destruct (hex2 b1 b2) as [b' |] eqn:Hb; [| discriminate].
  intros [= <- <- <-]. by exists r1, r2, g1, g2, b1, b2.
Qed.

(** [Fade.apply] at progress 0 rebuilds an achromatic colour at the
    brightness it has. *)
Lemma fade_color_zero (brightness : Z) (c : Color) (v : Z) :
  channels c = Some (v, v, v) →
  ∃ c', fade_color brightness c 0 = Ok c' ∧ channels c' = Some (v, v, v).
Proof.
  intros Hc.
  destruct (channels_inv _ _ _ _ Hc)
    as (r1 & r2 & g1 & g2 & b1 & b2 & -> & Hr & _ & _).
  destruct (py_int16_hex2 _ _ _ Hr) as [Hparse Hrange].
  unfold fade_color. cbn [substring]. rewrite Hparse.
  unfold mbind, result_bind, mret, result_ret.
  rewrite (py_int_Qeq _ _ (lerp_0 _ _)), py_int_inject_Z.
  destruct (fmt_02x_byte v Hrange) as (a & b & -> & Hab).
  eexists. split; [reflexivity |].
  unfold channels. simpl. by rewrite Hab.
Qed.

Lemma step_value_zero (step : AnimationStep) (ps : list Point) (c : Color) :
  (∀ q, q == 0 → cos q == 1) →
  (∀ q, q == 0 → sin q == 0) →
  match step with
  | Move _ _ => True
  | Rotate _ | Scale _ => ps ≠ []
  | Fade _ => achromatic c
  end →
  ∃ ps' c', step_value step ps c 0 = Ok (ps', c')
            ∧ geom_eq ps' ps ∧ color_eqv c' c.
Proof.
  intros Hcos Hsin Hok.
  destruct step as [dx dy | angle | factor | brightness]; simpl.
  - eexists _, _. split; [reflexivity |]. split; [| by left].
    apply geom_eq_map. intros [x y]. simpl. split; ring.
  - destruct ps as [| p ps']; [done |]. rewrite centroid_cons.
    remember (p :: ps') as ps eqn:Hps. clear Hps p ps' Hok.
    unfold mbind, result_bind, mret, result_ret.
    eexists _, _. split; [reflexivity |]. split; [| by left].
    apply geom_eq_map. intros [x y]. simpl.
    assert (Htheta : radians pi (angle * 0) == 0) by (unfold radians; ring).
    rewrite (Hcos _ Htheta), (Hsin _ Htheta). split; ring.
  - destruct ps as [| p ps']; [done |]. rewrite centroid_cons.
    remember (p :: ps') as ps eqn:Hps. clear Hps p ps' Hok.
    unfold mbind, result_bind, mret, result_ret.
    eexists _, _. split; [reflexivity |]. split; [| by left].
    apply geom_eq_map. intros [x y]. simpl. unfold lerp. split; ring.
  - destruct Hok as [v Hv].
    destruct (fade_color_zero brightness c v Hv) as (c' & -> & Hc').
    unfold mbind, result_bind, mret, result_ret.
    eexists _, _. split; [reflexivity |]. split; [apply geom_eq_refl |].
    right. rewrite Hc', Hv. by split.
Qed.

(** C5 (amended).  At local progress 0 a step is a no-op: [Move] adds a
    zero displacement, [Rotate] turns by 0 degrees about the centroid,
    [Scale] scales by [lerp(1.0, factor, 0)], [Fade] rebuilds the colour at
    its brightness.  The list returned holds the points of the list given
    and the colour returned is observably the colour given: with [Move], for
    every geometry; with [Fade], for every achromatic colour and a target
    in 0..255; with [Rotate] and [Scale], for a non-empty geometry whose
    coordinates and centroid are whole numbers, on which
    [cx + (x - cx)] is computed without rounding.  The list given is not
    changed.  ([math.cos] and [math.sin] map 0 to 1 and to 0.) *)
Theorem progress_zero_is_noop (step : AnimationStep) (l : loc) (c : Color)
    (st : state) (ps : list Point) :
  (∀ q, q == 0 → cos q == 1) →
  (∀ q, q == 0 → sin q == 0) →
  lists st !! l = Some ps →
  match step with
  | Move _ _ => True
  | Rotate _ | Scale _ => ps ≠ [] ∧ whole_geometry ps
  | Fade brightness => achromatic c ∧ (0 <= brightness <= 255)%Z
  end →
  ∃ l' c' st' ps',
    step_apply step l c 0 st = (Ok (l', c'), st')
    ∧ lists st' !! l' = Some ps' ∧ geom_eq ps' ps ∧ color_eqv c' c
    ∧ lists st' !! l = Some ps.
Proof.
  intros Hcos Hsin Hl Hok.
  assert (Hok' : match step with
                 | Move _ _ => True
                 | Rotate _ | Scale _ => ps ≠ []
                 | Fade _ => achromatic c
                 end).
  { destruct step; [done | by destruct Hok .. ]. }
  destruct (step_value_zero step ps c Hcos Hsin Hok')
    as (ps' & c' & Hval & Hgeom & Hcol).
  pose proof (step_apply_sound step l c 0 st ps Hl) as Hrun.
  rewrite Hval in Hrun. destruct Hrun as (l' & st' & Hrun & Hext & Hl').
  exists l', c', st', ps'. repeat split; try done.
  by eapply extends_lookup.
Qed.

(** ** Fade *)

(** [Fade.apply] reads the brightness at characters 1 and 2 of the colour,
    interpolates towards the target, truncates, and formats the result
    three times; the list is returned as it came and the store is not
    touched. *)
Lemma Fade_apply_spec (brightness : Z) (l : loc) (c : Color) (t : Q)
    (st : state) :
  Fade_apply brightness l c t st
  = match py_int16 (substring 1 2 c) with
    | Ok current_val =>
        let v := fmt_02x (py_int (lerp (inject_Z current_val)
                                    (inject_Z brightness) t)) in
        (Ok (l, String "#" (v ++ v ++ v)%string), st)
    | Raise e => (Raise e, st)
    end.
Proof.
  unfold Fade_apply, mbind, M_bind, lift.
  by destruct (py_int16 (substring 1 2 c)).
Qed.


(** ** The red channel *)

Lemma py_int_byte (q : Q) : 0 <= q <= 255 → (0 <= py_int q <= 255)%Z.
Proof.
  destruct q as [n d]. unfold Qle, py_int. simpl. intros [Hlo Hhi].
  assert (Hn : (0 <= n)%Z) by lia.
  rewrite Z.quot_div_nonneg by lia. split.
  - apply Z.div_pos; lia.
  - apply Z.div_le_upper_bound; lia.
Qed.

Lemma lerp_byte (a b t : Q) :
  0 <= a <= 255 → 0 <= b <= 255 → 0 <= t <= 1 → 0 <= lerp a b t <= 255.
Proof.
  intros Ha Hb Ht.
  assert (Heq : lerp a b t == a * (1 - t) + b * t) by (unfold lerp; ring).
  rewrite Heq.
  assert (H1 : 0 <= a * (1 - t)) by (apply Qmult_le_0_compat; lra).
  assert (H2 : 0 <= b * t) by (apply Qmult_le_0_compat; lra).
  assert (H3 : 0 <= (255 - a) * (1 - t)) by (apply Qmult_le_0_compat; lra).
  assert (H4 : 0 <= (255 - b) * t) by (apply Qmult_le_0_compat; lra).
  split; [lra |].
  assert (Hsum : 255 - (a * (1 - t) + b * t)
                 == (255 - a) * (1 - t) + (255 - b) * t) by ring.
  lra.
Qed.


(** ** Construction of a timeline *)

Lemma zip_take (sts : list AnimationStep) (ds : list Q) :
  zip sts ds
  = zip (take (min (length sts) (length ds)) sts)
        (take (min (length sts) (length ds)) ds).
Proof.
  revert ds. induction sts as [| s sts IH]; intros [| d ds]; simpl; try done.
  f_equal. apply IH.
Qed.

(** C7 (amended).  Constructing an [Animation] whose [steps] and
    [durations] differ in length is accepted: the constructor stores its
    arguments as they are.  On playback [zip] pairs the two lists up to the
    length of the shorter, so that the resolution is that of the timeline
    cut to this length: surplus steps are never applied and surplus
    durations never walked (they still count in [duration]). *)
Theorem mismatched_lengths_accepted (sts : list AnimationStep) (ds : list Q)
    (start : Q) (shape : Shape) (now : Q) :
  Animation_init sts ds start = Ok (mkAnimation sts ds start)
  ∧ replay shape (mkAnimation sts ds start) now
    = replay shape
        (mkAnimation (take (min (length sts) (length ds)) sts)
                     (take (min (length sts) (length ds)) ds) start) now
  ∧ duration (mkAnimation sts ds start) = py_sum ds.
Proof.
  split; [reflexivity | split; [| reflexivity]].
  unfold replay. cbn [steps durations start_time]. by rewrite <- zip_take.
Qed.

(** ** Empty geometry *)

Lemma for_shapes_app (xs ys : list Shape) (now : Q) (fin : bool) (st : state) :
  for_shapes (xs ++ ys) now fin st
  = (b ← for_shapes xs now fin; for_shapes ys now b) st.
Proof.
  revert fin st. induction xs as [| x xs IH]; intros fin st; simpl.
  - reflexivity.
  - destruct (animation x) as [anim |]; [| apply IH].
    destruct (negb (active anim now)); [apply IH |].
    unfold mbind, M_bind.
    destruct (replay x anim now st) as [[[l c] | e] st1]; [| done].
    destruct (render (shape_id x) l c st1) as [[[] | e] st2]; [| done].
    apply IH.
Qed.

Lemma py_int16_raises (s : string) (e : exn) :
  py_int16 s = Raise e → e = ValueError.
Proof.
  unfold py_int16.
  match goal with
  | |- context [let '(_, _) := ?x in _] => destruct x as [neg ds]
  end.
  destruct ds as [| d ds]; [by intros [= <-] |].
  destruct (digits_value (d :: ds) 0); [done | by intros [= <-]].
Qed.

(** What a step does on the list without points. *)
Lemma step_apply_empty (step : AnimationStep) (l : loc) (c : Color) (t : Q)
    (st : state) :
  lists st !! l = Some [] →
  (is_pivot step ∧ step_apply step l c t st = (Raise ZeroDivisionError, st))
  ∨ (is_fade step ∧ step_apply step l c t st = (Raise ValueError, st))
  ∨ (¬ is_pivot step
     ∧ ∃ l' c' st', step_apply step l c t st = (Ok (l', c'), st')
                    ∧ extends st st' [] ∧ lists st' !! l' = Some []).
Proof.
  intros Hl. pose proof (step_apply_sound step l c t st [] Hl) as Hrun.
  destruct step as [dx dy | angle | factor | brightness]; simpl in Hrun.
  - right. right. split; [by intros [] |].
    destruct Hrun as (l' & st' & Hrun & Hext & Hl'). eauto 10.
  - left. by split.
  - left. by split.
  - right. unfold fade_color, mbind, result_bind in Hrun.
    destruct (py_int16 (substring 1 2 c)) as [v | e] eqn:Hparse.
    + right. split; [by intros [] |].
      destruct Hrun as (l' & st' & Hrun & Hext & Hl'). eauto 10.
    + apply py_int16_raises in Hparse as ->. left. by split.
Qed.

(** On the list without points the replay does not return once a [Rotate]
    or a [Scale] is among the steps it applies. *)
Lemma replay_loop_empty (pairs : list (AnimationStep * Q)) (t cur : Q)
    (l : loc) (c : Color) (st : state) :
  lists st !! l = Some [] →
  Exists is_pivot (applied_steps pairs t cur) →
  ∃ e st', replay_loop pairs t cur l c st = (Raise e, st')
           ∧ extends st st' []
           ∧ (e = ZeroDivisionError
              ∨ (e = ValueError ∧ Exists is_fade (applied_steps pairs t cur))).
Proof.
  revert cur l c st.
  induction pairs as [| [step d] rest IH]; intros cur l c st Hl Hpivot; simpl in *.
  - by apply Exists_nil in Hpivot.
  - destruct (Qle_bool d 0); [by apply IH |].
    unfold mbind, M_bind.
    destruct (step_apply_empty step l c (py_max 0 (py_min 1 ((t - cur) / d)))
                st Hl)
      as [[_ ->] | [[Hfade ->] | (Hno & l' & c' & st' & -> & Hext & Hl')]].
    + exists ZeroDivisionError, st. split; [done |].
      split; [apply extends_refl | by left].
    + exists ValueError, st. split; [done |].
      split; [apply extends_refl |]. right. split; [done |]. by left.
    + apply Exists_cons in Hpivot as [Hstep | Hrest]; [done |].
      destruct (Qlt_bool _ 1); [by apply Exists_nil in Hrest |].
      destruct (IH (cur + d) l' c' st' Hl' Hrest)
        as (e & st'' & Hrun & Hext' & He).
      exists e, st''. split; [done |].
      split; [by apply (extends_trans st st' st'' [] []) |].
      destruct He as [-> | [-> Hf]]; [by left |].
      right. split; [done |]. by right.
Qed.

(** C8 (amended).  [Rotate.apply] and [Scale.apply] on a list without
    points raise the [ZeroDivisionError] of the division of lines 57 and 77
    - no check comes before the division and no message names the empty
    geometry - and leave the store as it was.  The resolution of a shape
    without points does not return once a [Rotate] or a [Scale] is among
    the steps it applies at that instant, wherever in the timeline: it
    raises [ZeroDivisionError], or the [ValueError] of a [Fade] applied
    before on a colour that is no numeral.  In [play_scene] the exception
    is not caught: at whatever poll this happens, after whatever earlier
    readings and frames, and wherever the shape stands in the list, the
    exception leaves the frame and the loop - the shapes before it in the
    list have been drawn in this frame, the shape is not drawn, the shapes
    after it are not visited, no further reading of the clock is polled,
    and the call ends with the exception. *)
Theorem empty_geometry_aborts (st : state) (shape : Shape) (anim : Animation)
    (t0 reading : Q) :
  lists st !! points shape = Some [] →
  animation shape = Some anim →
  active anim (reading - t0) = true →
  Exists is_pivot
    (applied_steps (zip (steps anim) (durations anim))
       (reading - t0 - start_time anim) 0) →
  (∀ l c t angle st0, lists st0 !! l = Some [] →
     Rotate_apply angle l c t st0 = (Raise ZeroDivisionError, st0))
  ∧ (∀ l c t factor st0, lists st0 !! l = Some [] →
       Scale_apply factor l c t st0 = (Raise ZeroDivisionError, st0))
  ∧ (∀ now calls st0,
       extends st st0 calls →
       Exists is_pivot
         (applied_steps (zip (steps anim) (durations anim))
            (now - start_time anim) 0) →
       ∃ e st',
         replay shape anim now st0 = (Raise e, st')
         ∧ extends st0 st' []
         ∧ (e = ZeroDivisionError
            ∨ (e = ValueError
               ∧ Exists is_fade
                   (applied_steps (zip (steps anim) (durations anim))
                      (now - start_time anim) 0))))
  ∧ (∀ before others earlier clock st1 b st2,
       play_scene (before ++ shape :: others) (t0 :: earlier) st
       = (Ok Polling, st1) →
       for_shapes before (reading - t0) true st1 = (Ok b, st2) →
       ∃ e st3,
         for_shapes (before ++ shape :: others) (reading - t0) true st1
         = (Raise e, st3)
         ∧ play_scene (before ++ shape :: others)
             (t0 :: earlier ++ reading :: clock) st
           = (Raise e, st3)
         ∧ canvas st3 = canvas st2
         ∧ (e = ZeroDivisionError
            ∨ (e = ValueError
               ∧ Exists is_fade
                   (applied_steps (zip (steps anim) (durations anim))
                      (reading - t0 - start_time anim) 0)))).
Proof.
  intros Hl Hanim Hact Hpivot.
  assert (Hrot : ∀ l c t angle st0, lists st0 !! l = Some [] →
            Rotate_apply angle l c t st0 = (Raise ZeroDivisionError, st0)).
  { intros l c t angle st0 Hl0.
    apply (step_apply_sound (Rotate angle) l c t st0 [] Hl0). }
  assert (Hsca : ∀ l c t factor st0, lists st0 !! l = Some [] →
            Scale_apply factor l c t st0 = (Raise ZeroDivisionError, st0)).
  { intros l c t factor st0 Hl0.
    apply (step_apply_sound (Scale factor) l c t st0 [] Hl0). }
  assert (Hreplay : ∀ now calls st0,
            extends st st0 calls →
            Exists is_pivot
              (applied_steps (zip (steps anim) (durations anim))
                 (now - start_time anim) 0) →
            ∃ e st',
              replay shape anim now st0 = (Raise e, st')
              ∧ extends st0 st' []
              ∧ (e = ZeroDivisionError
                 ∨ (e = ValueError
                    ∧ Exists is_fade
                        (applied_steps (zip (steps anim) (durations anim))
                           (now - start_time anim) 0)))).
  { intros now calls st0 Hext Hnow.
    assert (Hl0 : lists st0 !! points shape = Some [])
      by (by eapply extends_lookup).
    unfold replay. by apply replay_loop_empty. }
  split; [exact Hrot | split; [exact Hsca | split; [exact Hreplay |]]].
  intros before others earlier clock st1 b st2 Hearlier Hbefore.
  unfold play_scene in *. revert Hearlier.
  rewrite omap_app. cbn [omap list_omap]. rewrite Hanim.
  destruct (omap animation before ++ anim :: omap animation others)
    as [| a0 anims] eqn:Hanims.
  { by destruct (omap animation before). }
  intros Hearlier.
  set (global_end := py_max_list (end_time a0) (map end_time anims)) in *.
  destruct (keeps_play_loop (before ++ shape :: others) global_end t0 earlier
              st) as [calls1 Hext1].
  rewrite Hearlier in Hext1. simpl in Hext1.
  destruct (keeps_for_shapes before (reading - t0) true st1) as [calls2 Hext2].
  rewrite Hbefore in Hext2. simpl in Hext2.
  destruct (Hreplay (reading - t0) (calls1 ++ calls2) st2)
    as (e & st3 & Hrun & Hext3 & He);
    [by eapply extends_trans | exact Hpivot |].
  assert (Hframe : for_shapes (before ++ shape :: others) (reading - t0) true
                     st1 = (Raise e, st3)).
  { rewrite for_shapes_app. unfold mbind at 1. unfold M_bind at 1.
    rewrite Hbefore. simpl. rewrite Hanim, Hact.
    simpl. unfold mbind, M_bind. by rewrite Hrun. }
  exists e, st3. split; [exact Hframe |]. split.
  - rewrite (play_loop_app _ _ _ _ _ _ _ Hearlier).
    simpl. unfold poll, mbind, M_bind. by rewrite Hframe.
  - split; [| exact He]. destruct Hext3 as [ext ->]. simpl.
    by rewrite app_nil_r.
Qed.

End Proofs.

(** * The statements on concrete scenes *)

Lemma frame_forwards_full_replay_witness :
  well_formed square_store [move_then_fade]
  ∧ ∃ st' r,
      for_shapes cos_series sin_series pi_approx [move_then_fade] (3 # 2) true
        square_store = (r, st')
      ∧ extends square_store st'
          [mkRender "square" [(10, 0); (20, 0); (20, 10); (10, 10)]%Q "#7f7f7f"]
      ∧ ∃ b, r = Ok b.
Proof.
  split.
  - repeat constructor. eexists. reflexivity.
  - apply (frame_forwards_full_replay cos_series sin_series pi_approx
             [move_then_fade] (3 # 2) true square_store).
    repeat constructor. eexists. reflexivity.
Defined.



Lemma resolve_at_end_time_witness :
  (animation move_then_fade = Some move_then_fade_timeline
   ∧ lists square_store !! points move_then_fade = Some square
   ∧ whole_timeline move_then_fade_timeline
   ∧ Forall (λ d, 0 <= d)%Q (durations move_then_fade_timeline)
   ∧ (2 == end_time move_then_fade_timeline)%Q)
  ∧ (active move_then_fade_timeline 2 = true
     ∧ ∃ st', extends square_store st' [] ∧
         ∃ l, replay cos_series sin_series pi_approx move_then_fade
                move_then_fade_timeline 2 square_store
              = (Ok (l, "#000000"%string), st')
              ∧ lists st' !! l = Some moved_square).
Proof.
  assert (Hds : Forall (λ d, 0 <= d)%Q (durations move_then_fade_timeline)).
  { repeat constructor; discriminate. }
  assert (Hwhole : whole_timeline move_then_fade_timeline).
  { split; [| split].
    - exists 0%Z. split; [reflexivity | lia].
    - constructor; [| constructor; [| constructor]];
        exists 1%Z; (split; [reflexivity | lia]).
    - simpl. lia. }
  split.
  - split; [reflexivity |]. split; [reflexivity |].
    split; [exact Hwhole |]. split; [exact Hds | reflexivity].
  - apply (resolve_at_end_time cos_series sin_series pi_approx move_then_fade
             move_then_fade_timeline square square_store 2%Q);
      try reflexivity; [exact Hwhole | exact Hds].
Defined.

(** C4 as stated fails on a step of duration 0: at [now == end_time] the
    step is skipped and the base square is resolved, not the square moved
    by the step at progress 1. *)
Lemma zero_duration_step_not_applied :
  ¬ (∃ g c l st' g',
       apply_all cos_series sin_series pi_approx (steps instant_timeline)
         square (color instant_shape) = Ok (g, c)
       ∧ replay cos_series sin_series pi_approx instant_shape instant_timeline
           (end_time instant_timeline) square_store = (Ok (l, c), st')
       ∧ lists st' !! l = Some g' ∧ geom_eq g' g).
Proof.
  intros (g & c & l & st' & g' & Happ & Hrun & Hl & Hgeom).
  vm_compute in Happ, Hrun.
  injection Happ as <- <-. injection Hrun as <- <-.
  vm_compute in Hl. injection Hl as <-.
  apply Forall2_cons_1 in Hgeom as [[Hx _] _].
  vm_compute in Hx. discriminate Hx.
Qed.

Lemma cos_series_zero (q : Q) : (q == 0 → cos_series q == 1)%Q.
Proof. intros H. unfold cos_series. rewrite H. reflexivity. Qed.

Lemma sin_series_zero (q : Q) : (q == 0 → sin_series q == 0)%Q.
Proof. intros H. exact H. Qed.

Lemma square_is_whole : whole_geometry square.
Proof.
  split; [| split].
  - unfold square.
    repeat (constructor;
            [split; eexists; (split; [reflexivity | lia]) |]).
    constructor.
  - simpl. lia.
  - exists 5%Z, 5%Z. split; reflexivity.
Defined.

Lemma progress_zero_is_noop_witness :
  ((∀ q, q == 0 → cos_series q == 1)%Q
   ∧ (∀ q, q == 0 → sin_series q == 0)%Q
   ∧ lists square_store !! 0%nat = Some square
   ∧ square ≠ [] ∧ whole_geometry square)
  ∧ ∃ l' c' st' ps',
      step_apply cos_series sin_series pi_approx (Rotate 90) 0%nat "#444444"
        0%Q square_store = (Ok (l', c'), st')
      ∧ lists st' !! l' = Some ps' ∧ geom_eq ps' square
      ∧ color_eqv c' "#444444"
      ∧ lists st' !! 0%nat = Some square.
Proof.
  split.
  - split; [exact cos_series_zero |]. split; [exact sin_series_zero |].
    split; [reflexivity |]. split; [discriminate | exact square_is_whole].
  - apply (progress_zero_is_noop cos_series sin_series pi_approx (Rotate 90)
             0%nat "#444444" square_store square).
    + exact cos_series_zero.
    + exact sin_series_zero.
    + reflexivity.
    + split; [discriminate | exact square_is_whole].
Defined.

(** C5 as stated fails on the empty geometry: [Rotate.apply] at progress 0
    raises instead of returning the geometry it was given. *)
Lemma rotate_empty_at_zero_raises :
  ¬ (∃ l' c' st' ps',
       step_apply cos_series sin_series pi_approx (Rotate 90) 0%nat "#444444"
         0%Q empty_store = (Ok (l', c'), st')
       ∧ lists st' !! l' = Some ps' ∧ geom_eq ps' []
       ∧ color_eqv c' "#444444").
Proof. intros (l' & c' & st' & ps' & Hrun & _). vm_compute in Hrun. discriminate Hrun. Qed.


(** C7 as stated fails: a timeline of two steps and one duration is
    constructed, and played to the end. *)
Lemma mismatched_timeline_is_played :
  length [Move 10 0; Move 0 10] ≠ length [1%Q]
  ∧ ¬ (∃ e, Animation_init [Move 10 0; Move 0 10] [1%Q] 0%Q = Raise e)
  ∧ animation mismatched_shape
    = match Animation_init [Move 10 0; Move 0 10] [1%Q] 0%Q with
      | Ok a => Some a
      | Raise _ => None
      end
  ∧ (play_scene cos_series sin_series pi_approx [mismatched_shape]
       [0; 1 # 2; 2]%Q square_store).1 = Ok Returned.
Proof.
  split; [discriminate |]. split; [by intros [e He] |].
  split; [reflexivity |]. vm_compute. reflexivity.
Qed.

Lemma empty_geometry_aborts_witness :
  (lists empty_store !! points delayed_rotor = Some []
   ∧ animation delayed_rotor = Some delayed_rotation
   ∧ active delayed_rotation ((3 # 2) - 0) = true
   ∧ Exists is_pivot
       (applied_steps
          (zip (steps delayed_rotation) (durations delayed_rotation))
          ((3 # 2) - 0 - start_time delayed_rotation) 0))%Q
  ∧ ((∀ l c t angle st0, lists st0 !! l = Some [] →
        Rotate_apply cos_series sin_series pi_approx angle l c t st0
        = (Raise ZeroDivisionError, st0))
     ∧ (∀ l c t factor st0, lists st0 !! l = Some [] →
          Scale_apply factor l c t st0 = (Raise ZeroDivisionError, st0))
     ∧ (∀ now calls st0,
          extends empty_store st0 calls →
          Exists is_pivot
            (applied_steps
               (zip (steps delayed_rotation) (durations delayed_rotation))
               (now - start_time delayed_rotation) 0) →
          ∃ e st',
            replay cos_series sin_series pi_approx delayed_rotor
              delayed_rotation now st0 = (Raise e, st')
            ∧ extends st0 st' []
            ∧ (e = ZeroDivisionError
               ∨ (e = ValueError
                  ∧ Exists is_fade
                      (applied_steps
                         (zip (steps delayed_rotation)
                              (durations delayed_rotation))
                         (now - start_time delayed_rotation) 0))))
     ∧ (∀ before others earlier clock st1 b st2,
          play_scene cos_series sin_series pi_approx
            (before ++ delayed_rotor :: others) (0 :: earlier) empty_store
          = (Ok Polling, st1) →
          for_shapes cos_series sin_series pi_approx before ((3 # 2) - 0) true
            st1 = (Ok b, st2) →
          ∃ e st3,
            for_shapes cos_series sin_series pi_approx
              (before ++ delayed_rotor :: others) ((3 # 2) - 0) true st1
            = (Raise e, st3)
            ∧ play_scene cos_series sin_series pi_approx
                (before ++ delayed_rotor :: others)
                (0 :: earlier ++ (3 # 2) :: clock) empty_store
              = (Raise e, st3)
            ∧ canvas st3 = canvas st2
            ∧ (e = ZeroDivisionError
               ∨ (e = ValueError
                  ∧ Exists is_fade
                      (applied_steps
                         (zip (steps delayed_rotation)
                              (durations delayed_rotation))
                         ((3 # 2) - 0 - start_time delayed_rotation) 0)))))%Q.
Proof.
  assert (Hpivot : Exists is_pivot
            (applied_steps
               (zip (steps delayed_rotation) (durations delayed_rotation))
               ((3 # 2) - 0 - start_time delayed_rotation) 0)%Q).
  { change (Exists is_pivot [Move 10 0; Rotate 90]).
    right. left. exact I. }
  split.
  - split; [reflexivity |]. split; [reflexivity |].
    split; [reflexivity | exact Hpivot].
  - apply (empty_geometry_aborts cos_series sin_series pi_approx empty_store
             delayed_rotor delayed_rotation 0%Q (3 # 2)%Q);
      first [reflexivity | exact Hpivot].
Defined.

(** C8 as stated fails on the error: what [Rotate.apply] raises on a list
    without points is nothing but the [ZeroDivisionError] of the division
    [sum(...) / len(shape)] of line 57 - the code does divide by zero, and
    there is no other error that would describe the empty geometry. *)
Lemma empty_rotation_divides_by_zero :
  ¬ (∃ e st',
       Rotate_apply cos_series sin_series pi_approx 90 0%nat "#444444" (1 # 2)
         empty_store = (Raise e, st')
       ∧ e ≠ ZeroDivisionError).
Proof.
  intros (e & st' & Hrun & Hother). vm_compute in Hrun.
  injection Hrun as <- _. by apply Hother.
Qed.

(** The same in a playback that has drawn frames before: the rotor after a
    square that moves is reached in the second frame, and the call ends
    there with the exception, the square drawn twice and the rotor never. *)
Example empty_rotor_ends_playback :
  ∃ st',
    play_scene cos_series sin_series pi_approx
      [first_shape; mkShape "rotor" 1 "#444444"
                      (Some (mkAnimation [Rotate 90] [1]%Q (1 # 2)%Q))]
      [0; 1 # 4; 3 # 4; 2]%Q (mkState [square; []] [])
    = (Raise ZeroDivisionError, st')
    ∧ map r_shape_id (canvas st') = ["first"; "first"]%string.
Proof. eexists. split; vm_compute; reflexivity. Qed.




(** The colour returned there. *)
Example fade_overshoot_colour :
  Fade_apply 0 0%nat "#ffffff" 2 square_store
  = (Ok (0%nat, "#-ff-ff-ff"%string), square_store).
Proof. vm_compute. reflexivity. Qed.

(** The scenario of the specification: the square with [Move(10, 0)] over
    1.0 s from t = 0 is drawn at (5,0) (15,0) (15,10) (5,10) at [now = 0.5]
    and at (10,0) (20,0) (20,10) (10,10) at [now = 1.0]. *)
Example translate_scenario :
  (∃ st1 g,
     for_shapes cos_series sin_series pi_approx [first_shape] (1 # 2) true
       square_store = (Ok false, st1)
     ∧ canvas st1 = [mkRender "first" g "#ffffff"]
     ∧ geom_eq g [(5, 0); (15, 0); (15, 10); (5, 10)]%Q)
  ∧ (∃ st2,
       for_shapes cos_series sin_series pi_approx [first_shape] 1 true
         square_store = (Ok false, st2)
       ∧ canvas st2 = [mkRender "first" moved_square "#ffffff"]).
Proof.
  split.
  - eexists _, _. split; [vm_compute; reflexivity |].
    split; [reflexivity |]. repeat constructor.
  - eexists. split; vm_compute; reflexivity.
Qed.

(** * Further properties of the engine *)

Section Properties.

Context (cos sin : Q → Q) (pi : Q).

Local Open Scope Q_scope.

Local Abbreviation step_apply := (step_apply cos sin pi).
Local Abbreviation step_value := (step_value cos sin pi).
Local Abbreviation Rotate_apply := (Rotate_apply cos sin pi).
Local Abbreviation replay_loop := (replay_loop cos sin pi).
Local Abbreviation replay := (replay cos sin pi).
Local Abbreviation for_shapes := (for_shapes cos sin pi).
Local Abbreviation poll := (poll cos sin pi).
Local Abbreviation play_loop := (play_loop cos sin pi).
Local Abbreviation play_scene := (play_scene cos sin pi).
Local Abbreviation spec_walk := (spec_walk cos sin pi).
Local Abbreviation spec_resolve := (spec_resolve cos sin pi).
Local Abbreviation spec_frame := (spec_frame cos sin pi).
Local Abbreviation apply_all := (apply_all cos sin pi).
Local Abbreviation step_apply_sound := (step_apply_sound cos sin pi).
Local Abbreviation replay_loop_spec := (replay_loop_spec cos sin pi).
Local Abbreviation for_shapes_spec := (for_shapes_spec cos sin pi).

(** ** Centroids *)

Lemma centroid_Ok (ps : list Point) :
  ps ≠ [] →
  centroid ps
  = Ok (py_sum (map fst ps) / inject_Z (Z.of_nat (length ps)),
        py_sum (map snd ps) / inject_Z (Z.of_nat (length ps))).
Proof. destruct ps; [done | reflexivity]. Qed.

(** ** The number of points *)

Lemma step_value_length (step : AnimationStep) (ps ps' : list Point)
    (c c' : Color) (t : Q) :
  step_value step ps c t = Ok (ps', c') → length ps' = length ps.
Proof.
  destruct step as [dx dy | angle | factor | brightness]; simpl.
  - intros [= <- _]. by rewrite length_map.
  - destruct (centroid ps) as [[cx cy] | e]; [| done].
    intros [= <- _]. by rewrite length_map.
  - destruct (centroid ps) as [[cx cy] | e]; [| done].
    intros [= <- _]. by rewrite length_map.
  - destruct (fade_color brightness c t); [| done]. by intros [= <- _].
Qed.

Lemma spec_walk_length (pairs : list (AnimationStep * Q)) (t cur : Q)
    (g g' : list Point) (c c' : Color) :
  spec_walk pairs t cur g c = Ok (g', c') → length g' = length g.
Proof.
  revert cur g c. induction pairs as [| [step d] rest IH]; intros cur g c; simpl.
  - by intros [= <- _].
  - destruct (Qle_bool d 0); [apply IH |].
    unfold mbind, result_bind.
    destruct (step_value step g c (clamp ((t - cur) / d) 0 1))
      as [[g1 c1] | e] eqn:Hstep; [| done].
    apply step_value_length in Hstep.
    destruct (Qlt_bool ((t - cur) / d) 1).
    + intros [= <- _]. done.
    + intros Hrest. apply IH in Hrest. congruence.
Qed.

(** X4.  The resolution keeps the number of points: whatever the
    timeline and the instant, when the replay of lines 157-177 returns, the
    list it returns has as many points as the base list of the shape (and
    the base list is still what it was). *)
Theorem replay_keeps_point_count (shape : Shape) (anim : Animation) (now : Q)
    (st st' : state) (base : list Point) (l : loc) (c : Color) :
  lists st !! points shape = Some base →
  replay shape anim now st = (Ok (l, c), st') →
  ∃ g, lists st' !! l = Some g ∧ length g = length base
       ∧ lists st' !! points shape = Some base.
Proof.
  intros Hbase Hrun. unfold replay in Hrun.
  destruct (replay_loop_spec (zip (steps anim) (durations anim))
              (now - start_time anim) 0 (points shape) (color shape) st base
              Hbase) as (st1 & Hext & Hspec).
  destruct (spec_walk _ _ _ _ _) as [[g c1] | e] eqn:Hwalk.
  - destruct Hspec as (l1 & Hrun1 & Hl1).
    rewrite Hrun1 in Hrun. injection Hrun as <- <- <-.
    exists g. split; [done |]. split.
    + by eapply spec_walk_length.
    + by eapply extends_lookup.
  - rewrite Hspec in Hrun. discriminate.
Qed.

(** ** Fading *)

(** Truncation toward zero stays between integer bounds. *)
Lemma py_int_bounds (m M : Z) (q : Q) :
  inject_Z m <= q <= inject_Z M → (m <= py_int q <= M)%Z.
Proof.
  destruct q as [n d]. unfold Qle, py_int. simpl. intros [Hlo Hhi].
  destruct (Z_le_gt_dec 0 n) as [Hn | Hn].
  - rewrite Z.quot_div_nonneg by lia. split.
    + apply Z.div_le_lower_bound; lia.
    + apply Z.div_le_upper_bound; lia.
  - replace n with (- (- n))%Z by lia.
    rewrite Z.quot_opp_l by lia.
    rewrite Z.quot_div_nonneg by lia.
    assert (H1 : (- n / Z.pos d <= - m)%Z)
      by (apply Z.div_le_upper_bound; lia).
    assert (H2 : (- M <= - n / Z.pos d)%Z)
      by (apply Z.div_le_lower_bound; lia).
    lia.
Qed.

(** X6.  [Fade.apply] never overshoots: for a target in 0..255 and a
    progress in [0, 1], the brightness it writes lies between the
    brightness it read in the colour and its target.  (What the two
    characters of the colour read as is at least -15 and at most 255;
    on such integers interpolation and truncation stay between the two end
    points in floating point as well.) *)
Theorem fade_between (brightness current_val : Z) (l : loc) (c : Color)
    (t : Q) (st : state) :
  py_int16 (substring 1 2 c) = Ok current_val →
  (0 <= brightness <= 255)%Z →
  0 <= t <= 1 →
  ∃ new_val,
    Fade_apply brightness l c t st
    = (Ok (l, String "#" (fmt_02x new_val ++ fmt_02x new_val
                          ++ fmt_02x new_val)%string), st)
    ∧ (Z.min current_val brightness <= new_val
       <= Z.max current_val brightness)%Z.
Proof.
  intros Hcur _ Ht. eexists. split.
  - rewrite Fade_apply_spec, Hcur. reflexivity.
  - apply py_int_bounds.
    assert (Hlow : lerp (inject_Z current_val) (inject_Z brightness) t
                   - inject_Z current_val
                   == (inject_Z brightness - inject_Z current_val) * t)
      by (unfold lerp; ring).
    assert (Hhigh : inject_Z brightness
                    - lerp (inject_Z current_val) (inject_Z brightness) t
                    == (inject_Z brightness - inject_Z current_val) * (1 - t))
      by (unfold lerp; ring).
    destruct (Z_le_gt_dec current_val brightness) as [Hle | Hgt].
    + rewrite Z.min_l, Z.max_r by lia.
      assert (Hq : inject_Z current_val <= inject_Z brightness)
        by (rewrite <- Zle_Qle; lia).
      assert (H1 : 0 <= (inject_Z brightness - inject_Z current_val) * t)
        by (apply Qmult_le_0_compat; lra).
      assert (H2 : 0 <= (inject_Z brightness - inject_Z current_val) * (1 - t))
        by (apply Qmult_le_0_compat; lra).
      lra.
    + rewrite Z.min_r, Z.max_l by lia.
      assert (Hq : inject_Z brightness <= inject_Z current_val)
        by (rewrite <- Zle_Qle; lia).
      assert (H1 : 0 <= (inject_Z current_val - inject_Z brightness) * t)
        by (apply Qmult_le_0_compat; lra).
      assert (H2 : 0 <= (inject_Z current_val - inject_Z brightness) * (1 - t))
        by (apply Qmult_le_0_compat; lra).
      assert (H3 : (inject_Z current_val - inject_Z brightness) * t
                   == - ((inject_Z brightness - inject_Z current_val) * t))
        by ring.
      assert (H4 : (inject_Z current_val - inject_Z brightness) * (1 - t)
                   == - ((inject_Z brightness - inject_Z current_val)
                         * (1 - t))) by ring.
      lra.
Qed.

(** X7.  A full [Fade] reaches its target: at progress 1, on any colour it
    can read and for a target in 0..255, [Fade.apply] returns the
    achromatic colour whose three channels are the target, whatever the
    brightness it read. *)
Theorem fade_reaches_target (brightness current_val : Z) (l : loc) (c : Color)
    (st : state) :
  py_int16 (substring 1 2 c) = Ok current_val →
  (0 <= brightness <= 255)%Z →
  Fade_apply brightness l c 1 st
  = (Ok (l, String "#" (fmt_02x brightness ++ fmt_02x brightness
                        ++ fmt_02x brightness)%string), st)
  ∧ channels (String "#" (fmt_02x brightness ++ fmt_02x brightness
                          ++ fmt_02x brightness)%string)
    = Some (brightness, brightness, brightness).
Proof.
  intros Hcur Hb. split.
  - rewrite Fade_apply_spec, Hcur. cbv zeta.
    by rewrite (py_int_Qeq _ _ (lerp_1 _ _)), py_int_inject_Z.
  - destruct (fmt_02x_byte brightness Hb) as (h1 & h2 & -> & Hh).
    unfold channels. simpl. by rewrite Hh.
Qed.

(** X8.  Fades chain: when the colour read and the target are bytes and
    the progress is in [0, 1], the colour written by [Fade.apply] is read
    back by the next [Fade.apply] as the brightness just written, so that a
    second fade starts where the first one stopped. *)
Theorem fade_then_fade (b1 b2 current_val : Z) (l : loc) (c : Color)
    (t1 t2 : Q) (st : state) :
  py_int16 (substring 1 2 c) = Ok current_val →
  (0 <= current_val <= 255)%Z →
  (0 <= b1 <= 255)%Z →
  0 <= t1 <= 1 →
  let written := py_int (lerp (inject_Z current_val) (inject_Z b1) t1) in
  ∃ c1,
    Fade_apply b1 l c t1 st = (Ok (l, c1), st)
    ∧ py_int16 (substring 1 2 c1) = Ok written
    ∧ channels c1 = Some (written, written, written)
    ∧ ∃ v, v = fmt_02x (py_int (lerp (inject_Z written) (inject_Z b2) t2))
           ∧ Fade_apply b2 l c1 t2 st
             = (Ok (l, String "#" (v ++ v ++ v)%string), st).
Proof.
  intros Hcur Hc Hb Ht written.
  assert (Hw : (0 <= written <= 255)%Z).
  { apply py_int_byte, lerp_byte; [| | done]; unfold Qle; simpl; lia. }
  destruct (fmt_02x_byte written Hw) as (h1 & h2 & Hfmt & Hh).
  destruct (py_int16_hex2 _ _ _ Hh) as [Hparse _].
  eexists. split.
  { rewrite Fade_apply_spec, Hcur. cbv zeta. fold written. rewrite Hfmt.
    reflexivity. }
  split; [exact Hparse |]. split.
  { unfold channels. simpl. by rewrite Hh. }
  eexists. split; [reflexivity |].
  rewrite Fade_apply_spec. cbn [substring append]. by rewrite Hparse.
Qed.

(** X9.  On a colour of fewer than two characters [Fade.apply] raises
    [ValueError]: the slice [color[1:3]] is empty and [int] rejects it.
    Nothing is allocated or drawn. *)
Theorem fade_short_colour_raises (brightness : Z) (l : loc) (c : Color)
    (t : Q) (st : state) :
  (String.length c <= 1)%nat →
  Fade_apply brightness l c t st = (Raise ValueError, st).
Proof.
  intros Hlen. rewrite Fade_apply_spec.
  destruct c as [| a [| b c']]; simpl in *; [done | done | lia].
Qed.

(** ** The end of the playback *)

Lemma py_max_ge (a b : Q) : a <= py_max a b ∧ b <= py_max a b.
Proof.
  unfold py_max. destruct (Qlt_bool a b) eqn:E.
  - apply Qlt_bool_iff in E. lra.
  - apply Qlt_bool_false in E. lra.
Qed.

Lemma py_max_list_ge (x : Q) (xs : list Q) :
  x <= py_max_list x xs ∧ ∀ y, y ∈ xs → y <= py_max_list x xs.
Proof.
  unfold py_max_list. revert x.
  induction xs as [| z xs IH]; intros x; simpl.
  - split; [lra |]. intros y Hy. by apply elem_of_nil in Hy.
  - destruct (IH (py_max x z)) as [H1 H2].
    destruct (py_max_ge x z) as [Hx Hz].
    split; [lra |]. intros y Hy. apply elem_of_cons in Hy as [-> | Hy].
    + lra.
    + by apply H2.
Qed.

Lemma py_max_list_in (x : Q) (xs : list Q) : py_max_list x xs ∈ x :: xs.
Proof.
  unfold py_max_list. revert x.
  induction xs as [| z xs IH]; intros x; simpl.
  - apply elem_of_cons. by left.
  - specialize (IH (py_max x z)).
    apply elem_of_cons in IH as [-> | IH].
    + unfold py_max. destruct (Qlt_bool x z).
      * apply elem_of_cons. right. apply elem_of_cons. by left.
      * apply elem_of_cons. by left.
    + apply elem_of_cons. right. apply elem_of_cons. by right.
Qed.

Lemma any_active_false (shapes : list Shape) (now : Q) :
  any_active shapes now = false
  ↔ ∀ anim, anim ∈ omap animation shapes → active anim now = false.
Proof.
  unfold any_active. induction shapes as [| shape rest IH]; simpl.
  - split; [| done]. intros _ anim Hin. by apply elem_of_nil in Hin.
  - destruct (animation shape) as [a |]; simpl.
    + rewrite orb_false_iff, IH. split.
      * intros [Ha Hrest] anim Hin.
        apply elem_of_cons in Hin as [-> | Hin]; auto.
      * intros H. split.
        -- apply H. apply elem_of_cons. by left.
        -- intros anim Hin. apply H. apply elem_of_cons. by right.
    + exact IH.
Qed.

Lemma play_loop_ends (shapes : list Shape) (global_end t0 r : Q)
    (clock : list Q) (st : state) :
  r ∈ clock →
  any_active shapes (r - t0) = false →
  global_end <= r - t0 →
  (play_loop shapes global_end t0 clock st).1 ≠ Ok Polling.
Proof.
  intros Hin Hidle Hend. revert st.
  induction clock as [| x clock IH]; intros st.
  - by apply elem_of_nil in Hin.
  - simpl. unfold mbind at 1. unfold M_bind.
    destruct (poll shapes global_end (x - t0) st) as [[[|] | e] st1] eqn:Hp;
      simpl; try done.
    apply elem_of_cons in Hin as [-> | Hin]; [| by apply IH].
    rewrite (poll_idle cos sin pi) in Hp by done.
    apply Qle_bool_iff in Hend. rewrite Hend in Hp. discriminate.
Qed.

Lemma play_loop_returned (shapes : list Shape) (global_end t0 : Q)
    (clock : list Q) (st : state) :
  (play_loop shapes global_end t0 clock st).1 = Ok Returned →
  ∃ r, r ∈ clock ∧ any_active shapes (r - t0) = false
       ∧ global_end <= r - t0.
Proof.
  revert st. induction clock as [| x clock IH]; intros st; simpl; [done |].
  unfold mbind at 1. unfold M_bind.
  destruct (poll shapes global_end (x - t0) st) as [[[|] | e] st1] eqn:Hp;
    simpl; try done.
  - intros _. apply (poll_exits_iff cos sin pi) in Hp as (Hidle & Hend & _).
    exists x. split; [apply elem_of_cons; by left | done].
  - intros Hret. destruct (IH st1 Hret) as (r & Hin & Hr).
    exists r. split; [apply elem_of_cons; by right | done].
Qed.

(** X10.  A scene without animated shape is a no-op: [play_scene] returns
    at once, without reading the clock and without drawing. *)
Theorem play_scene_without_animation (shapes : list Shape) (clock : list Q)
    (st : state) :
  Forall (λ shape, animation shape = None) shapes →
  play_scene shapes clock st = (Ok Returned, st).
Proof.
  intros Hnone. unfold play_scene.
  replace (omap animation shapes) with (@nil Animation); [done |].
  induction Hnone as [| shape rest Hs _ IH]; [done |].
  simpl. by rewrite Hs.
Qed.

(** X11.  The playback ends: once the clock gives a reading whose elapsed
    time is past the end of every animation, [play_scene] is no longer
    polling - it has returned, at that reading at the latest, or an
    exception has ended it before. *)
Theorem play_scene_ends (shapes : list Shape) (t0 r : Q) (readings : list Q)
    (st : state) :
  r ∈ readings →
  (∀ anim, anim ∈ omap animation shapes → end_time anim < r - t0) →
  (play_scene shapes (t0 :: readings) st).1 ≠ Ok Polling.
Proof.
  intros Hin Hpast. unfold play_scene.
  destruct (omap animation shapes) as [| anim anims] eqn:Hanims; [done |].
  apply (play_loop_ends _ _ _ r); [done | |].
  - apply any_active_false. rewrite Hanims. intros a Ha.
    apply active_false_iff. right. by apply Hpast.
  - pose proof (py_max_list_in (end_time anim) (map end_time anims)) as Hmax.
    assert (Hsome : ∃ a, a ∈ anim :: anims
                         ∧ py_max_list (end_time anim) (map end_time anims)
                           = end_time a).
    { apply elem_of_cons in Hmax as [Hmax | Hmax].
      - exists anim. split; [apply elem_of_cons; by left | done].
      - apply list_elem_of_fmap in Hmax as (a & Ha & Hina).
        exists a. split; [apply elem_of_cons; by right | done]. }
    destruct Hsome as (a & Ha & ->). specialize (Hpast a Ha). lra.
Qed.

(** X12.  The playback does not return early: when [play_scene] returns on
    a scene with an animated shape, some reading of the clock had reached
    the end of every animation (it was at or past [global_end]), with no
    shape active at that instant. *)
Theorem play_scene_returns_late (shapes : list Shape) (t0 : Q)
    (readings : list Q) (st : state) :
  omap animation shapes ≠ [] →
  (play_scene shapes (t0 :: readings) st).1 = Ok Returned →
  ∃ r, r ∈ readings
       ∧ any_active shapes (r - t0) = false
       ∧ ∀ anim, anim ∈ omap animation shapes → end_time anim <= r - t0.
Proof.
  intros Hsome. unfold play_scene.
  destruct (omap animation shapes) as [| anim anims] eqn:Hanims; [done |].
  intros Hret. apply play_loop_returned in Hret as (r & Hin & Hidle & Hend).
  exists r. split; [done |]. split; [done |].
  intros a Ha.
  destruct (py_max_list_ge (end_time anim) (map end_time anims)) as [H1 H2].
  apply elem_of_cons in Ha as [-> | Ha]; [lra |].
  specialize (H2 (end_time a) (list_elem_of_fmap_2 end_time _ _ Ha)). lra.
Qed.

(** ** What a frame draws *)

Lemma spec_frame_ids (store : list (list Point)) (shapes : list Shape)
    (now : Q) :
  (spec_frame store shapes now).2 = None →
  map r_shape_id (spec_frame store shapes now).1
  = map shape_id (List.filter (shape_active now) shapes).
Proof.
  induction shapes as [| shape rest IH]; simpl; [done |].
  unfold shape_active at 1.
  destruct (animation shape) as [anim |]; [| exact IH].
  destruct (active anim now); [| exact IH].
  destruct (store !! points shape) as [base |]; [| done].
  destruct (spec_resolve base (color shape) anim now) as [[g c] | e]; [| done].
  destruct (spec_frame store rest now) as [calls err]. simpl in *.
  intros Herr. by rewrite IH.
Qed.

(** X13.  A frame that completes draws exactly the active shapes, once
    each and in the order of the list: the identifiers received by the
    renderer are those of the shapes that pass the test of line 151; a
    shape without animation, or outside its window, is not drawn; and
    [finished] stays set only if it was set and no shape was active. *)
Theorem frame_draws_active_shapes (shapes : list Shape) (now : Q) (fin b : bool)
    (st st' : state) :
  well_formed st shapes →
  for_shapes shapes now fin st = (Ok b, st') →
  ∃ calls,
    canvas st' = canvas st ++ calls
    ∧ map r_shape_id calls
      = map shape_id (List.filter (shape_active now) shapes)
    ∧ b = fin && negb (any_active shapes now).
Proof.
  intros Hwf Hrun.
  destruct (for_shapes_spec shapes now fin st Hwf) as (st1 & Hext & Hspec).
  rewrite Hspec in Hrun.
  destruct (spec_frame (lists st) shapes now).2 as [e |] eqn:Herr;
    [discriminate |].
  injection Hrun as <- <-.
  exists (spec_frame (lists st) shapes now).1.
  split; [by eapply extends_canvas |]. split; [| done].
  by apply spec_frame_ids.
Qed.

(** ** Timelines without positive duration *)

Lemma replay_loop_skips (pairs : list (AnimationStep * Q)) (t cur : Q) (l : loc)
    (c : Color) (st : state) :
  Forall (λ p, p.2 <= 0) pairs →
  replay_loop pairs t cur l c st = (Ok (l, c), st).
Proof.
  induction 1 as [| [step d] rest Hd _ IH]; simpl; [done |].
  simpl in Hd. apply Qle_bool_iff in Hd. by rewrite Hd.
Qed.

Lemma Forall_zip_snd (P : Q → Prop) (sts : list AnimationStep) (ds : list Q) :
  Forall P ds → Forall (λ p, P p.2) (zip sts ds).
Proof.
  intros Hds. revert sts.
  induction Hds as [| d ds Hd _ IH]; intros [| s sts]; simpl; constructor;
    auto.
Qed.

(** X14.  A timeline in which no duration is positive - an empty one in
    particular - resolves to the shape as it is: whatever its steps and
    the instant, the replay returns the base list of the shape itself and
    its base colour, applies no step, and allocates nothing. *)
Theorem replay_without_positive_duration (shape : Shape) (anim : Animation)
    (now : Q) (st : state) :
  Forall (λ d, d <= 0) (durations anim) →
  replay shape anim now st = (Ok (points shape, color shape), st).
Proof.
  intros Hds. unfold replay. apply replay_loop_skips.
  by apply (Forall_zip_snd (λ d, d <= 0)).
Qed.

(** ** Scenes on which nothing is raised *)

Lemma clamp_unit (raw : Q) : 0 <= clamp raw 0 1 <= 1.
Proof.
  unfold clamp.
  destruct (Qle_bool raw 0) eqn:E1; [lra |]. apply Qle_bool_false in E1.
  destruct (Qle_bool 1 raw) eqn:E2; [lra |]. apply Qle_bool_false in E2. lra.
Qed.

(** Every step keeps a list non-empty and a colour readable, when it is
    applied within [0, 1] and its target is in range. *)
Lemma step_value_safe (step : AnimationStep) (ps : list Point) (c : Color)
    (t : Q) :
  ps ≠ [] → colour_ok c → fade_target_ok step → 0 <= t <= 1 →
  ∃ ps' c', step_value step ps c t = Ok (ps', c')
            ∧ ps' ≠ [] ∧ colour_ok c'.
Proof.
  intros Hne Hc Hstep Ht.
  destruct step as [dx dy | angle | factor | brightness]; simpl.
  - eexists _, _. split; [reflexivity |]. split; [by destruct ps | done].
  - rewrite (centroid_Ok ps Hne). unfold mbind, result_bind, mret, result_ret.
    eexists _, _. split; [reflexivity |]. split; [by destruct ps | done].
  - rewrite (centroid_Ok ps Hne). unfold mbind, result_bind, mret, result_ret.
    eexists _, _. split; [reflexivity |]. split; [by destruct ps | done].
  - destruct Hc as (cur & Hcur & Hrange). simpl in Hstep.
    unfold fade_color. rewrite Hcur.
    unfold mbind, result_bind, mret, result_ret.
    set (new_val := py_int (lerp (inject_Z cur) (inject_Z brightness) t)).
    assert (Hnew : (0 <= new_val <= 255)%Z).
    { apply py_int_byte, lerp_byte; [| | done]; unfold Qle; simpl; lia. }
    destruct (fmt_02x_byte new_val Hnew) as (h1 & h2 & -> & Hh).
    destruct (py_int16_hex2 _ _ _ Hh) as [Hparse _].
    eexists _, _. split; [reflexivity |]. split; [done |].
    exists new_val. split; [exact Hparse | done].
Qed.

Lemma spec_walk_safe (pairs : list (AnimationStep * Q)) (t cur : Q)
    (g : list Point) (c : Color) :
  g ≠ [] → colour_ok c → Forall (λ p, fade_target_ok p.1) pairs →
  ∃ g' c', spec_walk pairs t cur g c = Ok (g', c').
Proof.
  intros Hg Hc Hpairs. revert cur g c Hg Hc.
  induction Hpairs as [| [step d] rest Hstep _ IH]; intros cur g c Hg Hc; simpl.
  - eauto.
  - destruct (Qle_bool d 0); [by apply IH |].
    destruct (step_value_safe step g c (clamp ((t - cur) / d) 0 1) Hg Hc Hstep
                (clamp_unit _)) as (g1 & c1 & -> & Hg1 & Hc1).
    unfold mbind, result_bind.
    destruct (Qlt_bool ((t - cur) / d) 1); [eauto | by apply IH].
Qed.

Lemma Forall_zip_fst (P : AnimationStep → Prop) (sts : list AnimationStep)
    (ds : list Q) :
  Forall P sts → Forall (λ p, P p.1) (zip sts ds).
Proof.
  intros Hsts. revert ds.
  induction Hsts as [| s sts Hs _ IH]; intros [| d ds]; simpl; constructor;
    auto.
Qed.

Lemma shape_ok_extends (st st' : state) (calls : list RenderCall)
    (shape : Shape) :
  extends st st' calls → shape_ok st shape → shape_ok st' shape.
Proof.
  intros Hext. unfold shape_ok.
  destruct (animation shape) as [anim |]; [| done].
  intros ((base & Hbase & Hne) & Hc & Hsteps).
  split; [| done]. exists base. split; [| done]. by eapply extends_lookup.
Qed.

Lemma spec_frame_safe (st : state) (shapes : list Shape) (now : Q) :
  Forall (shape_ok st) shapes → (spec_frame (lists st) shapes now).2 = None.
Proof.
  induction 1 as [| shape rest Hok _ IH]; simpl; [done |].
  unfold shape_ok in Hok.
  destruct (animation shape) as [anim |]; [| exact IH].
  destruct (active anim now); [| exact IH].
  destruct Hok as ((base & -> & Hne) & Hc & Hsteps).
  unfold spec_resolve.
  destruct (spec_walk_safe (zip (steps anim) (durations anim))
              (now - start_time anim) 0 base (color shape) Hne Hc
              (Forall_zip_fst fade_target_ok _ _ Hsteps)) as (g & c & ->).
  by destruct (spec_frame (lists st) rest now).
Qed.

Lemma play_loop_safe (shapes : list Shape) (global_end t0 : Q) (clock : list Q)
    (st : state) :
  well_formed st shapes → Forall (shape_ok st) shapes →
  ∃ o st', play_loop shapes global_end t0 clock st = (Ok o, st').
Proof.
  revert st. induction clock as [| reading clock IH]; intros st Hwf Hok; simpl.
  - eauto.
  - unfold poll, mbind, M_bind.
    destruct (for_shapes_spec shapes (reading - t0) true st Hwf)
      as (st1 & Hext & ->).
    rewrite (spec_frame_safe st shapes _ Hok).
    unfold mret, M_ret.
    destruct (_ && Qle_bool global_end (reading - t0)); [eauto |].
    apply IH.
    + by eapply well_formed_extends.
    + eapply Forall_impl; [exact Hok |]. intros shape.
      by apply shape_ok_extends with (calls := (spec_frame (lists st) shapes (reading - t0)).1).
Qed.

(** X16.  On a scene in which every animated shape has at least one
    point, a colour whose characters 1 and 2 read as a byte, and targets of
    [Fade] within 0..255, [play_scene] raises nothing: whatever the clock
    readings (and whatever [math.cos] and [math.sin] return), every frame
    completes, and the call either returns or is still polling when the
    readings run out. *)
Theorem play_scene_never_raises (shapes : list Shape) (clock : list Q)
    (st : state) :
  well_formed st shapes →
  Forall (shape_ok st) shapes →
  ∃ o st', play_scene shapes clock st = (Ok o, st').
Proof.
  intros Hwf Hok. unfold play_scene.
  destruct (omap animation shapes) as [| anim anims]; [eauto |].
  destruct clock as [| t0 clock]; [eauto |].
  by apply play_loop_safe.
Qed.

(** ** Playing again *)

Lemma keeps_play_scene (shapes : list Shape) (clock : list Q) :
  keeps_store (play_scene shapes clock).
Proof.
  unfold play_scene. destruct (omap animation shapes) as [| anim anims].
  - apply keeps_ret.
  - destruct clock as [| t0 clock]; [apply keeps_ret |].
    apply (keeps_play_loop cos sin pi).
Qed.

(** Two stores that extend a well-formed one give the same frame. *)
Lemma for_shapes_same_frame (shapes : list Shape) (now : Q) (fin : bool)
    (st0 sa sb : state) (ca cb : list RenderCall) :
  well_formed st0 shapes → extends st0 sa ca → extends st0 sb cb →
  ∃ r calls sa' sb',
    for_shapes shapes now fin sa = (r, sa')
    ∧ for_shapes shapes now fin sb = (r, sb')
    ∧ extends sa sa' calls ∧ extends sb sb' calls.
Proof.
  intros Hwf Ha Hb.
  destruct (for_shapes_spec shapes now fin sa (well_formed_extends _ _ _ _ Ha Hwf))
    as (sa' & Hexta & Hruna).
  destruct (for_shapes_spec shapes now fin sb (well_formed_extends _ _ _ _ Hb Hwf))
    as (sb' & Hextb & Hrunb).
  rewrite (spec_frame_extends cos sin pi _ _ _ _ now Ha Hwf) in *.
  rewrite (spec_frame_extends cos sin pi _ _ _ _ now Hb Hwf) in *.
  eexists _, _, sa', sb'. eauto.
Qed.

Lemma play_loop_same_run (shapes : list Shape) (global_end t0 : Q)
    (clock : list Q) (st0 sa sb : state) (ca cb : list RenderCall) :
  well_formed st0 shapes → extends st0 sa ca → extends st0 sb cb →
  ∃ r calls sa' sb',
    play_loop shapes global_end t0 clock sa = (r, sa')
    ∧ play_loop shapes global_end t0 clock sb = (r, sb')
    ∧ extends sa sa' calls ∧ extends sb sb' calls.
Proof.
  intros Hwf. revert sa sb ca cb.
  induction clock as [| reading clock IH]; intros sa sb ca cb Ha Hb; simpl.
  - exists (Ok Polling), [], sa, sb. repeat split; apply extends_refl.
  - unfold poll, mbind, M_bind.
    destruct (for_shapes_same_frame shapes (reading - t0) true st0 sa sb ca cb
                Hwf Ha Hb) as (r & calls & sa1 & sb1 & -> & -> & Ha1 & Hb1).
    destruct r as [fin | e].
    + unfold mret, M_ret.
      destruct (fin && Qle_bool global_end (reading - t0)).
      * exists (Ok Returned), calls, sa1, sb1. done.
      * destruct (IH sa1 sb1 (ca ++ calls) (cb ++ calls))
          as (r & calls2 & sa2 & sb2 & -> & -> & Ha2 & Hb2).
        { by eapply extends_trans. }
        { by eapply extends_trans. }
        exists r, (calls ++ calls2), sa2, sb2.
        repeat split; by eapply extends_trans.
    + exists (Raise e), calls, sa1, sb1. done.
Qed.

(** X17.  Playback is replayable: [play_scene] keeps no state between
    calls.  Run on the store left by any earlier call, with the lists that
    call allocated and the frames it drew, it gives the same outcome and
    sends the renderer the same calls as when it is run on the original
    store with the same clock readings. *)
Theorem playback_is_replayable (shapes : list Shape) (earlier clock : list Q)
    (st : state) :
  well_formed st shapes →
  ∃ r calls sa sb,
    play_scene shapes clock st = (r, sa)
    ∧ play_scene shapes clock (play_scene shapes earlier st).2 = (r, sb)
    ∧ canvas sa = canvas st ++ calls
    ∧ canvas sb = canvas (play_scene shapes earlier st).2 ++ calls.
Proof.
  intros Hwf.
  destruct (keeps_play_scene shapes earlier st) as [calls0 Hext0].
  set (st1 := (play_scene shapes earlier st).2) in *.
  unfold play_scene.
  destruct (omap animation shapes) as [| anim anims].
  { exists (Ok Returned), [], st, st1. by rewrite !app_nil_r. }
  destruct clock as [| t0 clock].
  { exists (Ok Polling), [], st, st1. by rewrite !app_nil_r. }
  destruct (play_loop_same_run shapes
              (py_max_list (end_time anim) (map end_time anims)) t0 clock
              st st st1 [] calls0 Hwf (extends_refl st) Hext0)
    as (r & calls & sa & sb & Ha & Hb & Hexta & Hextb).
  exists r, calls, sa, sb. split; [done |]. split; [done |].
  split; by eapply extends_canvas.
Qed.

(** ** Windows *)

(** X18.  A timeline whose [end_time] is before its [start_time], as the
    sum of line 113 makes it when negative durations outweigh the others,
    is never active: the test of line 151 fails at every instant, its shape
    is never resolved or drawn, and a frame goes over the shape as if it
    were not in the list. *)
Theorem backwards_window_never_drawn (shape : Shape) (anim : Animation)
    (rest : list Shape) (now : Q) (fin : bool) (st : state) :
  animation shape = Some anim →
  end_time anim < start_time anim →
  active anim now = false
  ∧ for_shapes (shape :: rest) now fin st = for_shapes rest now fin st.
Proof.
  intros Hanim Hneg.
  assert (Hact : active anim now = false).
  { apply active_false_iff.
    destruct (Qlt_le_dec now (start_time anim)); [by left | right; lra]. }
  split; [done |]. simpl. by rewrite Hanim, Hact.
Qed.

End Properties.

(** * The further properties on concrete scenes *)

Ltac closed_fact :=
  solve [ reflexivity | discriminate | exact I
        | vm_compute; reflexivity | vm_compute; discriminate ].

Lemma replay_keeps_point_count_witness :
  (lists square_store !! points move_then_fade = Some square
   ∧ replay cos_series sin_series pi_approx move_then_fade
       move_then_fade_timeline (1 # 2) square_store
     = (Ok (1%nat, "#ffffff"%string),
        (replay cos_series sin_series pi_approx move_then_fade
           move_then_fade_timeline (1 # 2) square_store).2))
  ∧ ∃ g, lists (replay cos_series sin_series pi_approx move_then_fade
                  move_then_fade_timeline (1 # 2) square_store).2 !! 1%nat
         = Some g
         ∧ length g = length square
         ∧ lists (replay cos_series sin_series pi_approx move_then_fade
                    move_then_fade_timeline (1 # 2) square_store).2
             !! points move_then_fade = Some square.
Proof.
  split; [split; closed_fact |].
  apply (replay_keeps_point_count cos_series sin_series pi_approx
           move_then_fade move_then_fade_timeline (1 # 2) square_store
           (replay cos_series sin_series pi_approx move_then_fade
              move_then_fade_timeline (1 # 2) square_store).2
           square 1%nat "#ffffff");
    closed_fact.
Defined.

Lemma fade_between_witness :
  (py_int16 (substring 1 2 "#ffffff") = Ok 255%Z
   ∧ (0 <= 0 <= 255)%Z ∧ (0 <= 1 # 2 <= 1)%Q)
  ∧ ∃ new_val,
      Fade_apply 0 0%nat "#ffffff" (1 # 2) square_store
      = (Ok (0%nat, String "#" (fmt_02x new_val ++ fmt_02x new_val
                                ++ fmt_02x new_val)%string), square_store)
      ∧ (Z.min 255 0 <= new_val <= Z.max 255 0)%Z.
Proof.
  split; [split; [closed_fact | split; [lia | split; closed_fact]] |].
  apply (fade_between 0 255 0%nat "#ffffff" (1 # 2) square_store);
    [closed_fact | lia | split; closed_fact].
Defined.

Lemma fade_reaches_target_witness :
  (py_int16 (substring 1 2 "#444444") = Ok 68%Z ∧ (0 <= 200 <= 255)%Z)
  ∧ (Fade_apply 200 0%nat "#444444" 1 main_store
     = (Ok (0%nat, String "#" (fmt_02x 200 ++ fmt_02x 200
                               ++ fmt_02x 200)%string), main_store)
     ∧ channels (String "#" (fmt_02x 200 ++ fmt_02x 200
                             ++ fmt_02x 200)%string)
       = Some (200, 200, 200)%Z).
Proof.
  split; [split; [closed_fact | lia] |].
  apply (fade_reaches_target 200 68 0%nat "#444444" main_store);
    [closed_fact | lia].
Defined.

Lemma fade_then_fade_witness :
  (py_int16 (substring 1 2 "#444444") = Ok 68%Z
   ∧ (0 <= 68 <= 255)%Z ∧ (0 <= 200 <= 255)%Z ∧ (0 <= 1 # 2 <= 1)%Q)
  ∧ (let written := py_int (lerp (inject_Z 68) (inject_Z 200) (1 # 2)) in
     ∃ c1,
       Fade_apply 200 0%nat "#444444" (1 # 2) main_store
       = (Ok (0%nat, c1), main_store)
       ∧ py_int16 (substring 1 2 c1) = Ok written
       ∧ channels c1 = Some (written, written, written)
       ∧ ∃ v, v = fmt_02x (py_int (lerp (inject_Z written) (inject_Z 40)
                                      (1 # 2)))
              ∧ Fade_apply 40 0%nat c1 (1 # 2) main_store
                = (Ok (0%nat, String "#" (v ++ v ++ v)%string), main_store)).
Proof.
  split; [split; [| split; [| split]]; try lia; try split; closed_fact |].
  apply (fade_then_fade 200 40 68 0%nat "#444444" (1 # 2) (1 # 2) main_store);
    try lia; try split; closed_fact.
Defined.

Lemma fade_short_colour_raises_witness :
  (String.length "#" <= 1)%nat
  ∧ Fade_apply 0 0%nat "#" (1 # 2) square_store
    = (Raise ValueError, square_store).
Proof.
  split; [simpl; lia |].
  apply (fade_short_colour_raises 0 0%nat "#" (1 # 2) square_store).
  simpl. lia.
Defined.

Lemma play_scene_without_animation_witness :
  Forall (λ shape, animation shape = None) [static_shape]
  ∧ play_scene cos_series sin_series pi_approx [static_shape] [0; 1]%Q
      square_store = (Ok Returned, square_store).
Proof.
  assert (Hnone : Forall (λ shape, animation shape = None) [static_shape])
    by (repeat constructor).
  split; [exact Hnone |].
  apply (play_scene_without_animation cos_series sin_series pi_approx
           [static_shape] [0; 1]%Q square_store Hnone).
Defined.

Lemma main_scene_ends_before_6 (anim : Animation) :
  anim ∈ omap animation main_shapes → (end_time anim < 6 - 0)%Q.
Proof.
  intros Hin. simpl in Hin.
  apply elem_of_cons in Hin as [-> | Hin]; [closed_fact |].
  apply elem_of_cons in Hin as [-> | Hin]; [closed_fact |].
  by apply elem_of_nil in Hin.
Qed.

Lemma play_scene_ends_witness :
  ((6 : Q) ∈ [1; 6]%Q
   ∧ ∀ anim, anim ∈ omap animation main_shapes → (end_time anim < 6 - 0)%Q)
  ∧ (play_scene cos_series sin_series pi_approx main_shapes (0 :: [1; 6])%Q
       main_store).1 ≠ Ok Polling.
Proof.
  assert (Hin : (6 : Q) ∈ [1; 6]%Q).
  { apply elem_of_cons. right. apply elem_of_cons. by left. }
  split; [split; [exact Hin | exact main_scene_ends_before_6] |].
  apply (play_scene_ends cos_series sin_series pi_approx main_shapes 0 6
           [1; 6]%Q main_store Hin main_scene_ends_before_6).
Defined.

Lemma play_scene_returns_late_witness :
  (omap animation main_shapes ≠ []
   ∧ (play_scene cos_series sin_series pi_approx main_shapes (0 :: [6])%Q
        main_store).1 = Ok Returned)
  ∧ ∃ r, r ∈ [6]%Q
         ∧ any_active main_shapes (r - 0) = false
         ∧ ∀ anim, anim ∈ omap animation main_shapes →
             (end_time anim <= r - 0)%Q.
Proof.
  split; [split; closed_fact |].
  apply (play_scene_returns_late cos_series sin_series pi_approx main_shapes 0
           [6]%Q main_store); closed_fact.
Defined.

Lemma main_scene_well_formed : well_formed main_store main_shapes.
Proof. repeat constructor; eexists; reflexivity. Qed.

Lemma frame_draws_active_shapes_witness :
  (well_formed main_store main_shapes
   ∧ for_shapes cos_series sin_series pi_approx main_shapes (3 # 4) true
       main_store
     = (Ok false,
        (for_shapes cos_series sin_series pi_approx main_shapes (3 # 4) true
           main_store).2))
  ∧ ∃ calls,
      canvas (for_shapes cos_series sin_series pi_approx main_shapes (3 # 4)
                true main_store).2
      = canvas main_store ++ calls
      ∧ map r_shape_id calls
        = map shape_id (List.filter (shape_active (3 # 4)) main_shapes)
      ∧ false = true && negb (any_active main_shapes (3 # 4)).
Proof.
  split; [split; [exact main_scene_well_formed | closed_fact] |].
  apply (frame_draws_active_shapes cos_series sin_series pi_approx main_shapes
           (3 # 4) true false main_store
           (for_shapes cos_series sin_series pi_approx main_shapes (3 # 4) true
              main_store).2 main_scene_well_formed).
  closed_fact.
Defined.

Lemma replay_without_positive_duration_witness :
  Forall (λ d, d <= 0)%Q (durations instant_timeline)
  ∧ replay cos_series sin_series pi_approx instant_shape instant_timeline 5
      square_store
    = (Ok (points instant_shape, color instant_shape), square_store).
Proof.
  assert (Hds : Forall (λ d, d <= 0)%Q (durations instant_timeline))
    by (repeat constructor; discriminate).
  split; [exact Hds |].
  apply (replay_without_positive_duration cos_series sin_series pi_approx
           instant_shape instant_timeline 5 square_store Hds).
Defined.

Lemma main_scene_shapes_ok : Forall (shape_ok main_store) main_shapes.
Proof.
  constructor; [| constructor; [| constructor]]; unfold shape_ok; simpl.
  - split; [eexists; split; [reflexivity | discriminate] |].
    split; [exists 68%Z; split; [reflexivity | lia] |].
    repeat constructor; simpl; lia.
  - split; [eexists; split; [reflexivity | discriminate] |].
    split; [exists 136%Z; split; [reflexivity | lia] |].
    repeat constructor; simpl; lia.
Qed.

Lemma play_scene_never_raises_witness :
  (well_formed main_store main_shapes
   ∧ Forall (shape_ok main_store) main_shapes)
  ∧ ∃ o st',
      play_scene cos_series sin_series pi_approx main_shapes
        [0; 1 # 2; 4; 6]%Q main_store = (Ok o, st').
Proof.
  split; [split; [exact main_scene_well_formed | exact main_scene_shapes_ok] |].
  apply (play_scene_never_raises cos_series sin_series pi_approx main_shapes
           [0; 1 # 2; 4; 6]%Q main_store main_scene_well_formed
           main_scene_shapes_ok).
Defined.

Lemma playback_is_replayable_witness :
  well_formed main_store main_shapes
  ∧ ∃ r calls sa sb,
      play_scene cos_series sin_series pi_approx main_shapes [0; 4; 6]%Q
        main_store = (r, sa)
      ∧ play_scene cos_series sin_series pi_approx main_shapes [0; 4; 6]%Q
          (play_scene cos_series sin_series pi_approx main_shapes [0; 1; 6]%Q
             main_store).2 = (r, sb)
      ∧ canvas sa = canvas main_store ++ calls
      ∧ canvas sb
        = canvas (play_scene cos_series sin_series pi_approx main_shapes
                    [0; 1; 6]%Q main_store).2 ++ calls.
Proof.
  split; [exact main_scene_well_formed |].
  apply (playback_is_replayable cos_series sin_series pi_approx main_shapes
           [0; 1; 6]%Q [0; 4; 6]%Q main_store main_scene_well_formed).
Defined.

Lemma backwards_window_never_drawn_witness :
  (animation backwards_shape = Some backwards_timeline
   ∧ (end_time backwards_timeline < start_time backwards_timeline)%Q)
  ∧ (active backwards_timeline 0 = false
     ∧ for_shapes cos_series sin_series pi_approx
         (backwards_shape :: [move_then_fade]) 0 true square_store
       = for_shapes cos_series sin_series pi_approx [move_then_fade] 0 true
           square_store).
Proof.
  split; [split; closed_fact |].
  apply (backwards_window_never_drawn cos_series sin_series pi_approx
           backwards_shape backwards_timeline [move_then_fade] 0 true
           square_store); closed_fact.
Defined.
